(** * ObjectWrapper: a facade over an object-storage client

    Verification development for [aws/s3/upload.py].  The module wraps
    one remote object (a boto3 [s3.Object]) and offers [put], [get],
    [list], [copy], [put_acl] and [get_acl]; every method calls the
    client, logs, and re-raises.

    The facade talks to three collaborators: the local file system
    ([open], [close]), the logger, and the storage client.  Each
    interaction is a [call]; a method is a finite tree of calls whose
    branches are the replies of the collaborators.  Properties of the
    code alone are stated for every handler of the calls; properties that
    depend on what the storage service does are stated for an in-memory
    service. *)

From Stdlib Require Import Strings.Byte.
From stdpp Require Import gmap strings list.

(** ** Data *)

Abbreviation bytes := (list Byte.byte).

(** Handle of a file object returned by [open]. *)
Abbreviation file := nat.

(** A boto3 [s3.Object] resource: a reference to the remote object,
    identified by bucket name and key. *)
Record s3_object : Type := Object {
  bucket_name : string;
  key : string
}.

(** A boto3 [s3.Bucket] resource. *)
Record Bucket : Type := mkBucket { name : string }.

(** An element of [bucket.objects]: an [s3.ObjectSummary]. *)
Record ObjectSummary : Type := Summary {
  summary_bucket_name : string;
  summary_key : string
}.

(** The owner of an ACL as the client gives it: a dict in which the keys
    [DisplayName] and [ID] may each be absent. *)
Record Owner : Type := mkOwner {
  DisplayName : option string;
  ID : option string
}.

Inductive Grantee : Type :=
| CanonicalUser (owner_ : Owner)
| AmazonCustomerByEmail (EmailAddress : string)
| Group (URI : string).

Inductive Permission : Type :=
| FULL_CONTROL | WRITE | WRITE_ACP | READ | READ_ACP.

Record Grant : Type := mkGrant {
  grantee : Grantee;
  permission : Permission
}.

(** The [AccessControlPolicy] argument of [acl.put]; its owner is what
    [acl.owner] was, [None] included. *)
Record AccessControlPolicy : Type := mkPolicy {
  Grants : list Grant;
  Owner_ : option Owner
}.

(** A loaded [s3.ObjectAcl] resource.  [self.object.Acl()] builds the
    resource without a request; the first attribute read ([acl.grants],
    [acl.owner]) loads it with one request and later reads use the loaded
    data.  [grants] is [None] when the response has no grant list and
    [owner] is [None] when it has no owner. *)
Record ObjectAcl : Type := mkAcl {
  acl_object : s3_object;
  grants : option (list Grant);
  owner : option Owner
}.

(** The response of [object.get()]; [Body] is a stream and [read] returns
    all of it. *)
Record StreamingBody : Type := mkStream { read : bytes }.
Record GetObjectOutput : Type := mkGetOutput { Body : StreamingBody }.

(** The [Body] argument of [object.put]: bytes, or an open file. *)
Inductive put_body : Type :=
| BodyBytes (b : bytes)
| BodyFile (f : file).

(** Exceptions, by class. *)
Inductive exn : Type :=
| IOError (msg : string)
| ClientError (code : string)
| WaiterError (msg : string)
| ValueError (msg : string)
| KeyError (k : string)
| TypeError (msg : string).

Definition is_IOError (e : exn) : bool :=
  match e with IOError _ => true | _ => false end.

Definition is_ClientError (e : exn) : bool :=
  match e with ClientError _ => true | _ => false end.

(** ** Calls and programs *)

Inductive call : Type :=
| open_rb (path : string)
| file_close (f : file)
| logger_info (fmt : string) (args : list string)
| logger_exception (fmt : string) (args : list string)
| Object_put (o : s3_object) (body : put_body) (ACL : string)
| Object_wait_until_exists (o : s3_object)
| Object_get (o : s3_object)
| objects_all (b : Bucket)
| objects_filter (b : Bucket) (Prefix : string)
| Object_copy_from (dest : s3_object) (CopySource : s3_object)
| ObjectAcl_load (o : s3_object)
| ObjectAcl_put (o : s3_object) (policy : AccessControlPolicy).

(** What the collaborator answers: a value, or an exception where the
    call can raise. *)
Definition reply (c : call) : Type :=
  match c with
  | open_rb _ => exn + file
  | file_close _ => unit
  | logger_info _ _ => unit
  | logger_exception _ _ => unit
  | Object_put _ _ _ => exn + unit
  | Object_wait_until_exists _ => exn + unit
  | Object_get _ => exn + GetObjectOutput
  | objects_all _ => exn + list ObjectSummary
  | objects_filter _ _ => exn + list ObjectSummary
  | Object_copy_from _ _ => exn + unit
  | ObjectAcl_load _ => exn + ObjectAcl
  | ObjectAcl_put _ _ => exn + unit
  end.

(** The calls that go to the storage client. *)
Definition is_remote (c : call) : bool :=
  match c with
  | open_rb _ | file_close _ | logger_info _ _ | logger_exception _ _ => false
  | _ => true
  end.

Inductive prog (R : Type) : Type :=
| Ret (r : R)
| Do (c : call) (k : reply c → prog R).

Arguments Ret {R} r.
Arguments Do {R} c k.

Fixpoint pbind {A B : Type} (p : prog A) (f : A → prog B) : prog B :=
  match p with
  | Ret a => f a
  | Do c k => Do c (fun r => pbind (k r) f)
  end.

(** How a Python block ends. *)
Inductive outcome (R : Type) : Type :=
| Returned (r : R)
| Raised (e : exn).

Arguments Returned {R} r.
Arguments Raised {R} e.

Definition M (R : Type) : Type := prog (outcome R).

Definition ret {R : Type} (r : R) : M R := Ret (Returned r).

Definition raise {R : Type} (e : exn) : M R := Ret (Raised e).

Definition bind {A B : Type} (m : M A) (f : A → M B) : M B :=
  pbind m (fun o => match o with
                    | Returned a => f a
                    | Raised e => Ret (Raised e)
                    end).

Declare Scope py_scope.
Delimit Scope py_scope with py.
Notation "x <- m ;; k" := (bind m (fun x => k))
  (at level 100, m at next level, right associativity) : py_scope.
Notation "m ;; k" := (bind m (fun _ => k))
  (at level 100, right associativity) : py_scope.
Open Scope py_scope.

(** [try: body  except cls: handler e]: an exception of another class
    passes through. *)
Definition try_except {R : Type} (body : M R) (cls : exn → bool)
    (handler : exn → M R) : M R :=
  pbind body (fun o => match o with
                       | Returned r => Ret (Returned r)
                       | Raised e => if cls e then handler e else Ret (Raised e)
                       end).

(** [try: body  finally: fin]: [fin] runs however [body] ends; an
    exception of [fin] replaces the outcome of [body]. *)
Definition try_finally {R : Type} (body : M R) (fin : M unit) : M R :=
  pbind body (fun o =>
    pbind fin (fun f => match f with
                        | Returned _ => Ret o
                        | Raised e => Ret (Raised e)
                        end)).

Definition of_sum {R : Type} (r : exn + R) : outcome R :=
  match r with inl e => Raised e | inr x => Returned x end.

(** Each call as a step of a method: [close] and the logger return, the
    others return or raise. *)
Definition open_ (path : string) : M file :=
  Do (open_rb path) (fun r => Ret (of_sum r)).
Definition close (f : file) : M unit :=
  Do (file_close f) (fun r => Ret (Returned r)).
Definition info (fmt : string) (args : list string) : M unit :=
  Do (logger_info fmt args) (fun r => Ret (Returned r)).
Definition exception (fmt : string) (args : list string) : M unit :=
  Do (logger_exception fmt args) (fun r => Ret (Returned r)).
Definition object_put (o : s3_object) (b : put_body) (acl : string) : M unit :=
  Do (Object_put o b acl) (fun r => Ret (of_sum r)).
Definition wait_until_exists (o : s3_object) : M unit :=
  Do (Object_wait_until_exists o) (fun r => Ret (of_sum r)).
Definition object_get (o : s3_object) : M GetObjectOutput :=
  Do (Object_get o) (fun r => Ret (of_sum r)).
Definition bucket_objects_all (b : Bucket) : M (list ObjectSummary) :=
  Do (objects_all b) (fun r => Ret (of_sum r)).
Definition bucket_objects_filter (b : Bucket) (p : string)
  : M (list ObjectSummary) :=
  Do (objects_filter b p) (fun r => Ret (of_sum r)).
Definition copy_from (dest src : s3_object) : M unit :=
  Do (Object_copy_from dest src) (fun r => Ret (of_sum r)).
Definition acl_load (o : s3_object) : M ObjectAcl :=
  Do (ObjectAcl_load o) (fun r => Ret (of_sum r)).
Definition acl_put (o : s3_object) (p : AccessControlPolicy) : M unit :=
  Do (ObjectAcl_put o p) (fun r => Ret (of_sum r)).

(** ** The facade *)

Record ObjectWrapper : Type := mkWrapper {
  object : s3_object;
  self_key : string
}.

(** [__init__] *)
Definition init (s3_obj : s3_object) : ObjectWrapper :=
  {| object := s3_obj; self_key := key s3_obj |}.

(** The [data] argument of [put]: bytes, or a string read as a file name. *)
Inductive put_data_arg : Type :=
| DataBytes (b : bytes)
| DataStr (s : string).

(** [put]: lines 21-27 open the file when [data] is a string; lines 29-42
    upload, wait, log, and close in [finally] what has a [close]. *)
Definition put (self : ObjectWrapper) (data : put_data_arg) : M unit :=
  put_data <-
    match data with
    | DataStr path =>
        try_except
          (f <- open_ path ;; ret (BodyFile f))
          is_IOError
          (fun e =>
             exception "Expected file name or binary data, got '%s'." [path] ;;
             raise e)
    | DataBytes b => ret (BodyBytes b)
    end ;;
  try_finally
    (try_except
       (object_put (object self) put_data "public-read" ;;
        wait_until_exists (object self) ;;
        info "Put object '%s' to bucket '%s'."
          [key (object self); bucket_name (object self)])
       is_ClientError
       (fun e =>
          exception "Couldn't put object '%s' to bucket '%s'."
            [key (object self); bucket_name (object self)] ;;
          raise e))
    (match put_data with
     | BodyFile f => close f
     | BodyBytes _ => ret tt
     end).

(** [get] *)
Definition get (self : ObjectWrapper) : M bytes :=
  body <-
    try_except
      (r <- object_get (object self) ;;
       let body := read (Body r) in
       info "Got object '%s' from bucket '%s'."
         [key (object self); bucket_name (object self)] ;;
       ret body)
      is_ClientError
      (fun e =>
         exception "Couldn't get object '%s' from bucket '%s'."
           [key (object self); bucket_name (object self)] ;;
         raise e) ;;
  ret body.

(** [repr] of a string, as Python writes it: in single quotes, or in
    double quotes when the string has a single quote and no double quote;
    the quote in use and the backslash are escaped, tab, newline and
    carriage return are written [\t], [\n], [\r], and the other control
    characters [\xhh].  (Characters above 127 stand for printable
    non-ASCII text and are kept.) *)
Definition single_quote : Ascii.ascii := Ascii.ascii_of_nat 39.
Definition double_quote : Ascii.ascii := Ascii.ascii_of_nat 34.
Definition backslash : Ascii.ascii := Ascii.ascii_of_nat 92.

Fixpoint has_char (c : Ascii.ascii) (s : string) : bool :=
  match s with
  | EmptyString => false
  | String x rest => Ascii.eqb x c || has_char c rest
  end.

Definition repr_quote (s : string) : Ascii.ascii :=
  if has_char single_quote s && negb (has_char double_quote s)
  then double_quote else single_quote.

Definition hex_digit (n : nat) : Ascii.ascii :=
  if n <? 10 then Ascii.ascii_of_nat (48 + n) else Ascii.ascii_of_nat (87 + n).

Definition repr_char (quote c : Ascii.ascii) : string :=
  let n := Ascii.nat_of_ascii c in
  if Ascii.eqb c quote || Ascii.eqb c backslash then
    String backslash (String c EmptyString)
  else if n =? 9 then "\t"
  else if n =? 10 then "\n"
  else if n =? 13 then "\r"
  else if (n <? 32) || (n =? 127) then
    "\x" +:+ String (hex_digit (n / 16))
                (String (hex_digit (n mod 16)) EmptyString)
  else String c EmptyString.

Fixpoint repr_chars (quote : Ascii.ascii) (s : string) : string :=
  match s with
  | EmptyString => EmptyString
  | String c rest => repr_char quote c +:+ repr_chars quote rest
  end.

Definition repr_str (s : string) : string :=
  let quote := repr_quote s in
  String quote (repr_chars quote s) +:+ String quote EmptyString.

(** [str] of a list of keys, for the log line of [list]. *)
Definition repr_keys (ks : list string) : string :=
  "[" +:+ String.concat ", " (map repr_str ks) +:+ "]".

(** Python truth value of an optional string: [None] and the empty string
    are false. *)
Definition truthy_str (s : option string) : bool :=
  match s with
  | None => false
  | Some EmptyString => false
  | Some (String _ _) => true
  end.

(** [list] (a static method; the name [list] is the type's here). *)
Definition list_ (bucket : Bucket) (prefix : option string)
  : M (list ObjectSummary) :=
  objects <-
    try_except
      (objects <-
         (if negb (truthy_str prefix) then bucket_objects_all bucket
          else bucket_objects_filter bucket (default EmptyString prefix)) ;;
       info "Got objects %s from bucket '%s'"
         [repr_keys (map summary_key objects); name bucket] ;;
       ret objects)
      is_ClientError
      (fun e =>
         exception "Couldn't get objects for bucket '%s'." [name bucket] ;;
         raise e) ;;
  ret objects.

(** [copy] *)
Definition copy (self : ObjectWrapper) (dest_object : s3_object) : M unit :=
  try_except
    (copy_from dest_object (object self) ;;
     wait_until_exists dest_object ;;
     info "Copied object from %s:%s to %s:%s."
       [key (object self); bucket_name (object self);
        bucket_name dest_object; key dest_object])
    is_ClientError
    (fun e =>
       exception "Couldn't copy object from %s/%s to %s/%s."
         [key (object self); bucket_name (object self);
          bucket_name dest_object; key dest_object] ;;
       raise e).

(** The grant that [put_acl] appends. *)
Definition email_read_grant (email : string) : Grant :=
  {| grantee := AmazonCustomerByEmail email; permission := READ |}.

(** [acl.grants if acl.grants else []]: the loaded list when it is
    non-empty, else a fresh empty list. *)
Definition grants_or_empty (g : option (list Grant)) : list Grant :=
  match g with
  | Some (x :: l) => x :: l
  | Some [] | None => []
  end.

(** [put_acl]: reading [acl.grants] loads the ACL; [acl.owner] is read
    from the same loaded data. *)
Definition put_acl (self : ObjectWrapper) (email : string) : M unit :=
  try_except
    (acl <- acl_load (object self) ;;
     let grants0 := grants_or_empty (grants acl) in
     let grants1 := grants0 ++ [email_read_grant email] in
     acl_put (object self) {| Grants := grants1; Owner_ := owner acl |} ;;
     info "Granted read access to %s." [email])
    is_ClientError
    (fun e =>
       exception "Couldn't add ACL to object '%s'." [key (object self)] ;;
       raise e).

(** [owner['DisplayName']]: a [TypeError] when the owner is [None], a
    [KeyError] when the dict has no such key. *)
Definition subscript_DisplayName (o : option Owner) : M string :=
  match o with
  | None => raise (TypeError "'NoneType' object is not subscriptable")
  | Some d =>
      match DisplayName d with
      | Some display_name => ret display_name
      | None => raise (KeyError "DisplayName")
      end
  end.

(** [get_acl]: reading [acl.owner] for the log line loads the ACL; the
    arguments of the log line are evaluated inside the [try], before the
    line is logged. *)
Definition get_acl (self : ObjectWrapper) : M ObjectAcl :=
  acl <-
    try_except
      (acl <- acl_load (object self) ;;
       display_name <- subscript_DisplayName (owner acl) ;;
       info "Got ACL for object %s owned by %s."
         [key (object self); display_name] ;;
       ret acl)
      is_ClientError
      (fun e =>
         exception "Couldn't get ACL for object %s." [key (object self)] ;;
         raise e) ;;
  ret acl.

(** ** Running a program against its collaborators *)

(** One observed interaction: the call and its reply. *)
Definition obs : Type := { c : call & reply c }.

Definition handler (W : Type) : Type := ∀ c : call, W → reply c * W.

(** [exec h p w]: the result of [p], the final state of the collaborators,
    and the interactions in order. *)
Fixpoint exec {W R : Type} (h : handler W) (p : prog R) (w : W)
  : R * W * list obs :=
  match p with
  | Ret r => (r, w, [])
  | Do c k =>
      let '(r, w1) := h c w in
      let '(x, w2, tr) := exec h (k r) w1 in
      (x, w2, existT c r :: tr)
  end.

Definition result_of {W R : Type} (x : R * W * list obs) : R := x.1.1.
Definition state_of {W R : Type} (x : R * W * list obs) : W := x.1.2.
Definition trace_of {W R : Type} (x : R * W * list obs) : list obs := x.2.

(** The exception a reply carries, if the call raised. *)
Definition raised_by (o : obs) : option exn :=
  match o with
  | existT c r =>
      match c return reply c → option exn with
      | open_rb _ => fun r => match r with inl e => Some e | inr _ => None end
      | file_close _ => fun _ => None
      | logger_info _ _ => fun _ => None
      | logger_exception _ _ => fun _ => None
      | Object_put _ _ _ => fun r => match r with inl e => Some e | inr _ => None end
      | Object_wait_until_exists _ => fun r => match r with inl e => Some e | inr _ => None end
      | Object_get _ => fun r => match r with inl e => Some e | inr _ => None end
      | objects_all _ => fun r => match r with inl e => Some e | inr _ => None end
      | objects_filter _ _ => fun r => match r with inl e => Some e | inr _ => None end
      | Object_copy_from _ _ => fun r => match r with inl e => Some e | inr _ => None end
      | ObjectAcl_load _ => fun r => match r with inl e => Some e | inr _ => None end
      | ObjectAcl_put _ _ => fun r => match r with inl e => Some e | inr _ => None end
      end r
  end.

Definition call_of (o : obs) : call := projT1 o.

(** The calls to the storage client among the interactions. *)
Definition remote_calls (tr : list obs) : list call :=
  filter (fun c => is_remote c = true) (map call_of tr).

(** ** An in-memory storage service, file system and logger *)

(** What the service keeps for one object.  [lag] counts the existence
    polls that still miss the object: it is visible when [lag] is 0. *)
Record RemoteObject : Type := mkRemote {
  content : bytes;
  policy : AccessControlPolicy;
  lag : nat
}.

Inductive level : Type := INFO | ERROR.

Record LogRecord : Type := mkLog {
  log_level : level;
  log_fmt : string;
  log_args : list string
}.

(** Modelled from the spec: the remote storage service (section 6: object
    put and get, existence poll with eventual visibility after put and
    copy, listing with a prefix filter, server-side copy, get and put of
    the access policy where put replaces the whole policy), which boto3
    reaches over the network and is not part of the module.  [fault_at n]
    is the error code with which the service answers request number [n],
    if it fails that request; [lag_at n] is the lag of an object written by
    request [n]; [attempts] is the number of polls of the waiter. *)
Record World : Type := mkWorld {
  store : gmap (string * string) RemoteObject;
  account : Owner;
  attempts : nat;
  fault_at : nat → option string;
  lag_at : nat → nat;
  calls : nat;
  files : gmap string bytes;
  opened : gmap file bytes;
  next_file : file;
  log : list LogRecord
}.

Definition address (o : s3_object) : string * string :=
  (bucket_name o, key o).

Definition set_store (s : gmap (string * string) RemoteObject) (w : World)
  : World :=
  mkWorld s (account w) (attempts w) (fault_at w) (lag_at w) (calls w)
          (files w) (opened w) (next_file w) (log w).

(** One more request has reached the service. *)
Definition tick (w : World) : World :=
  mkWorld (store w) (account w) (attempts w) (fault_at w) (lag_at w)
          (S (calls w)) (files w) (opened w) (next_file w) (log w).

Definition set_opened (o : gmap file bytes) (n : file) (w : World) : World :=
  mkWorld (store w) (account w) (attempts w) (fault_at w) (lag_at w)
          (calls w) (files w) o n (log w).

Definition add_log (r : LogRecord) (w : World) : World :=
  mkWorld (store w) (account w) (attempts w) (fault_at w) (lag_at w)
          (calls w) (files w) (opened w) (next_file w) (log w ++ [r]).

(** The fault of the request that comes next. *)
Definition fault (w : World) : option string := fault_at w (calls w).

Definition all_users : string :=
  "http://acs.amazonaws.com/groups/global/AllUsers".

Definition public_read_grant : Grant :=
  {| grantee := Group all_users; permission := READ |}.

(** Modelled from the spec: the grants a canned ACL stands for when an
    object is created ([public-read]: a public-read grant applied at
    creation). *)
Definition canned_acl (acl : string) (who : Owner) : option (list Grant) :=
  if String.eqb acl "private" then
    Some [mkGrant (CanonicalUser who) FULL_CONTROL]
  else if String.eqb acl "public-read" then
    Some [mkGrant (CanonicalUser who) FULL_CONTROL; public_read_grant]
  else None.

(** The object at an address as a reader sees it. *)
Definition visible (w : World) (o : s3_object) : option RemoteObject :=
  match store w !! address o with
  | Some ob => if lag ob is 0 then Some ob else None
  | None => None
  end.

(** The bytes a [Body] argument stands for. *)
Definition body_bytes (w : World) (b : put_body) : option bytes :=
  match b with
  | BodyBytes bs => Some bs
  | BodyFile f => opened w !! f
  end.

Definition serve_open (path : string) (w : World) : (exn + file) * World :=
  match files w !! path with
  | Some bs =>
      (inr (next_file w),
       set_opened (<[next_file w := bs]> (opened w)) (S (next_file w)) w)
  | None => (inl (IOError ("No such file or directory: " +:+ path)), w)
  end.

Definition serve_close (f : file) (w : World) : unit * World :=
  (tt, set_opened (delete f (opened w)) (next_file w) w).

Definition serve_put (o : s3_object) (b : put_body) (acl : string)
    (w : World) : (exn + unit) * World :=
  match body_bytes w b with
  | None => (inl (ValueError "I/O operation on closed file."), w)
  | Some bs =>
      match fault w with
      | Some code => (inl (ClientError code), tick w)
      | None =>
          match canned_acl acl (account w) with
          | None => (inl (ClientError "InvalidArgument"), tick w)
          | Some gs =>
              (inr (),
               tick (set_store
                       (<[address o :=
                            {| content := bs;
                               policy := {| Grants := gs;
                                            Owner_ := Some (account w) |};
                               lag := lag_at w (calls w) |}]> (store w)) w))
          end
      end
  end.

(** The waiter polls up to [attempts] times; poll [i] (from 0) sees an
    object whose lag is at most [i]. *)
Definition serve_wait (o : s3_object) (w : World) : (exn + unit) * World :=
  match fault w with
  | Some code => (inl (WaiterError code), tick w)
  | None =>
      match store w !! address o with
      | Some ob =>
          if decide (lag ob < attempts w) then
            (inr (),
             tick (set_store
                     (<[address o := mkRemote (content ob) (policy ob) 0]>
                        (store w)) w))
          else
            (inl (WaiterError "Max attempts exceeded"),
             tick (set_store
                     (<[address o := mkRemote (content ob) (policy ob)
                                              (lag ob - attempts w)]>
                        (store w)) w))
      | None => (inl (WaiterError "Max attempts exceeded"), tick w)
      end
  end.

Definition serve_get (o : s3_object) (w : World)
  : (exn + GetObjectOutput) * World :=
  match fault w with
  | Some code => (inl (ClientError code), tick w)
  | None =>
      match visible w o with
      | Some ob => (inr {| Body := {| read := content ob |} |}, tick w)
      | None => (inl (ClientError "NoSuchKey"), tick w)
      end
  end.

(** The visible objects of a bucket, as the service lists them. *)
Definition bucket_objects (w : World) (b : string) : list ObjectSummary :=
  (fun kv : string * string * RemoteObject => Summary kv.1.1 kv.1.2)
    <$> filter (fun kv : string * string * RemoteObject =>
                  kv.1.1 = b ∧ lag kv.2 = 0)
          (map_to_list (store w)).

Definition starts_with (p : string) (s : ObjectSummary) : bool :=
  String.prefix p (summary_key s).

Definition serve_all (b : Bucket) (w : World)
  : (exn + list ObjectSummary) * World :=
  match fault w with
  | Some code => (inl (ClientError code), tick w)
  | None => (inr (bucket_objects w (name b)), tick w)
  end.

Definition serve_filter (b : Bucket) (p : string) (w : World)
  : (exn + list ObjectSummary) * World :=
  match fault w with
  | Some code => (inl (ClientError code), tick w)
  | None =>
      (inr (filter (fun s => starts_with p s = true)
              (bucket_objects w (name b))), tick w)
  end.

(** A server-side copy: the destination gets the bytes of the source and,
    as a new object of the caller, the private policy. *)
Definition serve_copy (dest src : s3_object) (w : World)
  : (exn + unit) * World :=
  match fault w with
  | Some code => (inl (ClientError code), tick w)
  | None =>
      match visible w src with
      | Some ob =>
          (inr (),
           tick (set_store
                   (<[address dest :=
                        {| content := content ob;
                           policy :=
                             {| Grants := [mkGrant (CanonicalUser (account w))
                                                   FULL_CONTROL];
                                Owner_ := Some (account w) |};
                           lag := lag_at w (calls w) |}]> (store w)) w))
      | None => (inl (ClientError "NoSuchKey"), tick w)
      end
  end.

Definition serve_acl_load (o : s3_object) (w : World)
  : (exn + ObjectAcl) * World :=
  match fault w with
  | Some code => (inl (ClientError code), tick w)
  | None =>
      match visible w o with
      | Some ob =>
          (inr {| acl_object := o;
                  grants := Some (Grants (policy ob));
                  owner := Owner_ (policy ob) |}, tick w)
      | None => (inl (ClientError "NoSuchKey"), tick w)
      end
  end.

(** Putting a policy replaces the whole policy of the object. *)
Definition serve_acl_put (o : s3_object) (p : AccessControlPolicy)
    (w : World) : (exn + unit) * World :=
  match fault w with
  | Some code => (inl (ClientError code), tick w)
  | None =>
      match visible w o with
      | Some ob =>
          (inr (),
           tick (set_store
                   (<[address o := mkRemote (content ob) p (lag ob)]>
                      (store w)) w))
      | None => (inl (ClientError "NoSuchKey"), tick w)
      end
  end.

(** Modelled from the spec: the collaborators of the facade, which are
    not part of the module: the storage client (section 6), the local file
    system, where [open] fails for a path that names no file, and the
    logging sink, which appends every line. *)
Definition serve : handler World :=
  fun c =>
    match c return World → reply c * World with
    | open_rb path => serve_open path
    | file_close f => serve_close f
    | logger_info fmt args => fun w => (tt, add_log (mkLog INFO fmt args) w)
    | logger_exception fmt args =>
        fun w => (tt, add_log (mkLog ERROR fmt args) w)
    | Object_put o b acl => serve_put o b acl
    | Object_wait_until_exists o => serve_wait o
    | Object_get o => serve_get o
    | objects_all b => serve_all b
    | objects_filter b p => serve_filter b p
    | Object_copy_from dest src => serve_copy dest src
    | ObjectAcl_load o => serve_acl_load o
    | ObjectAcl_put o p => serve_acl_put o p
    end.

(** The next [n] requests are not failed by the service. *)
Definition no_fault (w : World) (n : nat) : Prop :=
  ∀ i, i < n → fault_at w (calls w + i) = None.

Definition Obs (c : call) (r : reply c) : obs := existT c r.

(** The bytes a [data] argument of [put] stands for. *)
Definition payload_bytes (w : World) (data : put_data_arg) : option bytes :=
  match data with
  | DataBytes b => Some b
  | DataStr path => files w !! path
  end.

(** ** The six operations, uniformly *)

Inductive operation : Type :=
| op_put (data : put_data_arg)
| op_get
| op_list (bucket : Bucket) (prefix : option string)
| op_copy (dest_object : s3_object)
| op_put_acl (email : string)
| op_get_acl.

Definition result_type (op : operation) : Type :=
  match op with
  | op_put _ => unit
  | op_get => bytes
  | op_list _ _ => list ObjectSummary
  | op_copy _ => unit
  | op_put_acl _ => unit
  | op_get_acl => ObjectAcl
  end.

Definition perform (self : ObjectWrapper) (op : operation)
  : M (result_type op) :=
  match op with
  | op_put data => put self data
  | op_get => get self
  | op_list bucket prefix => list_ bucket prefix
  | op_copy dest => copy self dest
  | op_put_acl email => put_acl self email
  | op_get_acl => get_acl self
  end.

(** The lines given to [logger.info] and to [logger.exception]: format
    and arguments, in order. *)
Definition info_lines (tr : list obs) : list (string * list string) :=
  omap (fun o => match call_of o with
                 | logger_info fmt args => Some (fmt, args)
                 | _ => None
                 end) tr.

Definition exception_lines (tr : list obs) : list (string * list string) :=
  omap (fun o => match call_of o with
                 | logger_exception fmt args => Some (fmt, args)
                 | _ => None
                 end) tr.

(** The identity of the resource as the failure line of an operation
    carries it, argument by argument: key and bucket name of the object
    for [put] and [get]; for [copy] these and the bucket name and key of
    the destination; the name of the bucket for [list]; the key alone,
    without the bucket name, for [put_acl] and [get_acl]. *)
Definition resource_identity (self : ObjectWrapper) (op : operation)
  : list string :=
  match op with
  | op_put _ | op_get =>
      [key (object self); bucket_name (object self)]
  | op_list bucket _ => [name bucket]
  | op_copy dest =>
      [key (object self); bucket_name (object self);
       bucket_name dest; key dest]
  | op_put_acl _ | op_get_acl => [key (object self)]
  end.

Definition logged_exception (tr : list obs) (arg : string) : Prop :=
  ∃ fmt args, Obs (logger_exception fmt args) () ∈ tr ∧ arg ∈ args.

(** Every exception raised by a call to the storage client is logged and
    comes out of the operation unchanged, and no call to the client
    follows it. *)
Definition logs_and_reraises {W R : Type} (h : handler W) (p : M R) (w : W)
    (arg : string) : Prop :=
  ∀ pre o post e,
    trace_of (exec h p w) = pre ++ o :: post →
    is_remote (call_of o) = true →
    raised_by o = Some e →
    result_of (exec h p w) = Raised e ∧
    remote_calls post = [] ∧
    logged_exception post arg.

(** ** Fixtures *)

Definition demo_owner : Owner := mkOwner (Some "demo") (Some "owner-id").

Definition demo_policy : AccessControlPolicy :=
  mkPolicy [mkGrant (CanonicalUser demo_owner) FULL_CONTROL]
           (Some demo_owner).

Definition demo_bucket : string := "evaluationroom.com".

(** A bucket holding the keys js/a.js, img/b.png and js/c.js, one object
    of another bucket, one local file; the service fails no request and
    an object written is visible from the third poll on. *)
Definition demo_world : World :=
  mkWorld
    (list_to_map
       [((demo_bucket, "js/a.js"), mkRemote ["a"%byte] demo_policy 0);
        ((demo_bucket, "img/b.png"), mkRemote ["b"%byte] demo_policy 0);
        ((demo_bucket, "js/c.js"), mkRemote ["c"%byte] demo_policy 0);
        (("other", "js/d.js"), mkRemote ["d"%byte] demo_policy 0)])
    demo_owner 20 (fun _ => None) (fun _ => 2) 0
    (list_to_map [("build/js/index.js", ["i"%byte; "j"%byte])]) ∅ 3 [].

(** The same where an object written stays invisible for 25 polls, more
    than the waiter makes. *)
Definition slow_world : World :=
  mkWorld (store demo_world) demo_owner 20 (fun _ => None) (fun _ => 25) 0
          (files demo_world) ∅ 3 [].

Definition demo_object : ObjectWrapper :=
  init (Object demo_bucket "js/a.js").

Definition new_object : ObjectWrapper :=
  init (Object demo_bucket "js/index.js").

(** The part of the world the storage service owns. *)
Definition remote_state (w : World) : gmap (string * string) RemoteObject * nat :=
  (store w, calls w).

(** The files closed during a run, in order. *)
Definition closed_files (tr : list obs) : list file :=
  omap (fun o => match call_of o with
                 | file_close f => Some f
                 | _ => None
                 end) tr.

(** What must hold at each call to the storage client that raised: [P e
    post] for the exception [e] and the interactions [post] after it. *)
Fixpoint each_remote_failure (P : exn → list obs → Prop) (tr : list obs)
  : Prop :=
  match tr with
  | [] => True
  | o :: post =>
      (if is_remote (call_of o)
       then match raised_by o with
            | Some e => P e post
            | None => True
            end
       else True) ∧ each_remote_failure P post
  end.

(** The service answers the second request, the [acl.put] of a [put_acl],
    with the code of a grantee it cannot resolve. *)
Definition unresolvable_world : World :=
  mkWorld (store demo_world) demo_owner 20
          (fun n => if n is 1 then Some "UnresolvableGrantByEmailAddress"
                    else None)
          (fun _ => 2) 0 (files demo_world) ∅ 3 [].

(** The value of [owner['DisplayName']], or the exception it raises. *)
Definition display_name_of (o : option Owner) : outcome string :=
  match o with
  | None => Raised (TypeError "'NoneType' object is not subscriptable")
  | Some d =>
      match DisplayName d with
      | Some display_name => Returned display_name
      | None => Raised (KeyError "DisplayName")
      end
  end.

(** An owner as the service gives it when it sends no display name. *)
Definition nameless_owner : Owner := mkOwner None (Some "owner-id").

(** The object js/a.js belongs to such an owner. *)
Definition nameless_world : World :=
  mkWorld
    (<[(demo_bucket, "js/a.js") :=
         mkRemote ["a"%byte]
           (mkPolicy [mkGrant (CanonicalUser nameless_owner) FULL_CONTROL]
                     (Some nameless_owner)) 0]> (store demo_world))
    nameless_owner 20 (fun _ => None) (fun _ => 2) 0
    (files demo_world) ∅ 3 [].

(** ** Proof steps *)

#[local] Arguments serve : simpl never.

Ltac unfold_facade :=
  unfold perform, put, get, list_, copy, put_acl, get_acl,
    subscript_DisplayName, try_except, try_finally, bind, ret, raise,
    open_, close, info, exception, object_put, wait_until_exists,
    object_get, bucket_objects_all, bucket_objects_filter, copy_from,
    acl_load, acl_put in *.

(** Name the reply of the next call and the state it leaves. *)
Ltac step h :=
  match goal with
  | |- context [h ?c ?w] =>
      let r := fresh "r" in
      let w' := fresh "w" in
      let E := fresh "E" in
      destruct (h c w) as [r w'] eqn:E; cbn in r; cbn
  end.

Ltac reply_cases :=
  repeat match goal with
         | r : (_ + _)%type |- _ => destruct r as [? | ?]; cbn
         | r : unit |- _ => destruct r; cbn
         end.

Ltac crunch h :=
  repeat first
    [ match goal with
      | |- context [if is_ClientError ?e then _ else _] =>
          let E := fresh "Hcls" in destruct (is_ClientError e) eqn:E; cbn
      | |- context [if is_IOError ?e then _ else _] =>
          let E := fresh "Hcls" in destruct (is_IOError e) eqn:E; cbn
      | |- context [match owner ?a with _ => _ end] =>
          let d := fresh "d" in
          let E := fresh "Hown" in destruct (owner a) as [d |] eqn:E; cbn
      | |- context [match DisplayName ?d with _ => _ end] =>
          let E := fresh "Hname" in destruct (DisplayName d) eqn:E; cbn
      end
    | step h; reply_cases ].


(** ** Reading a trace *)

Definition is_file_call (c : call) : bool :=
  match c with
  | open_rb _ | file_close _ => true
  | _ => false
  end.

(** The calls to the file system among the interactions. *)
Definition file_calls (tr : list obs) : list call :=
  filter (fun c => is_file_call c = true) (map call_of tr).

(** The remote objects a call names. *)
Definition addressed (c : call) : list s3_object :=
  match c with
  | Object_put o _ _ => [o]
  | Object_wait_until_exists o => [o]
  | Object_get o => [o]
  | Object_copy_from dest src => [dest; src]
  | ObjectAcl_load o => [o]
  | ObjectAcl_put o _ => [o]
  | _ => []
  end.

(** The buckets a call lists. *)
Definition listed (c : call) : list Bucket :=
  match c with
  | objects_all b => [b]
  | objects_filter b _ => [b]
  | _ => []
  end.

(** The objects an operation is about: the wrapped object, and for [copy]
    the destination too. *)
Definition objects_of (self : ObjectWrapper) (op : operation)
  : list s3_object :=
  match op with
  | op_list _ _ => []
  | op_copy dest => [object self; dest]
  | _ => [object self]
  end.

Definition buckets_of (op : operation) : list Bucket :=
  match op with
  | op_list b _ => [b]
  | _ => []
  end.

(** The request a reading operation makes. *)
Definition read_request (self : ObjectWrapper) (op : operation)
  : option call :=
  match op with
  | op_get => Some (Object_get (object self))
  | op_list b None => Some (objects_all b)
  | op_list b (Some EmptyString) => Some (objects_all b)
  | op_list b (Some (String a p)) => Some (objects_filter b (String a p))
  | op_get_acl => Some (ObjectAcl_load (object self))
  | _ => None
  end.

(** The calls that were answered without an exception. *)
Definition answered (tr : list obs) : list call :=
  omap (fun o => match raised_by o with
                 | Some _ => None
                 | None => Some (call_of o)
                 end) tr.

(** ** The demo: upload_react_files *)

(** What the demo does besides using the facade: it prints, configures
    logging, reads the region of the client, and creates the bucket.
    ([boto3.resource] and [s3_resource.Bucket] build resources without a
    request.)  [Bucket_create] answers with the exception together with
    the message of its error response ([err.response['Error']['Message']])
    when it raises. *)
Inductive driver_call : Type :=
| facade (c : call)
| print (line : string)
| logging_basicConfig (lvl : level) (format : string)
| client_region_name
| Bucket_create (b : Bucket) (LocationConstraint : option string).

Definition driver_reply (c : driver_call) : Type :=
  match c with
  | facade c => reply c
  | print _ => unit
  | logging_basicConfig _ _ => unit
  | client_region_name => option string
  | Bucket_create _ _ => (exn * string) + unit
  end.

Inductive script (R : Type) : Type :=
| Done (r : R)
| Step (c : driver_call) (k : driver_reply c → script R).

Arguments Done {R} r.
Arguments Step {R} c k.

Fixpoint sbind {A B : Type} (p : script A) (f : A → script B) : script B :=
  match p with
  | Done a => f a
  | Step c k => Step c (fun r => sbind (k r) f)
  end.

(** A method of the facade as a part of the demo. *)
Fixpoint lift {R : Type} (p : prog R) : script R :=
  match p with
  | Ret r => Done r
  | Do c k => Step (facade c) (fun r => lift (k r))
  end.

Definition S_ (R : Type) : Type := script (outcome R).

Definition s_ret {R : Type} (r : R) : S_ R := Done (Returned r).

Definition s_raise {R : Type} (e : exn) : S_ R := Done (Raised e).

Definition s_bind {A B : Type} (m : S_ A) (f : A → S_ B) : S_ B :=
  sbind m (fun o => match o with
                    | Returned a => f a
                    | Raised e => Done (Raised e)
                    end).

Definition s_try_except {R : Type} (body : S_ R) (cls : exn → bool)
    (handler : exn → S_ R) : S_ R :=
  sbind body (fun o => match o with
                       | Returned r => Done (Returned r)
                       | Raised e =>
                           if cls e then handler e else Done (Raised e)
                       end).

Declare Scope script_scope.
Delimit Scope script_scope with script.
Notation "x <- m ;; k" := (s_bind m (fun x => k))
  (at level 100, m at next level, right associativity) : script_scope.
Notation "m ;; k" := (s_bind m (fun _ => k))
  (at level 100, right associativity) : script_scope.

Definition print_ (line : string) : S_ unit :=
  Step (print line) (fun r => Done (Returned r)).

Definition basicConfig (lvl : level) (format : string) : S_ unit :=
  Step (logging_basicConfig lvl format) (fun r => Done (Returned r)).

Definition region_name : S_ (option string) :=
  Step client_region_name (fun r => Done (Returned r)).

(** [s * n] on strings. *)
Fixpoint str_mul (s : string) (n : nat) : string :=
  match n with
  | 0 => EmptyString
  | S n => s +:+ str_mul s n
  end.

Definition newline : string := String (Ascii.ascii_of_nat 10) EmptyString.

(** [error.response['Error']['Code']] of a [ClientError]. *)
Definition Code (e : exn) : string :=
  match e with
  | ClientError code => code
  | _ => EmptyString
  end.

Definition directory_file_names : string :=
  "../../../EvaluationRoom_React/build/".

Definition list_file_names : list string :=
  ["js/index_exam.js"; "js/index_public.js"; "js/index.js"].

Definition grantee_email : string := "fcernaf@gmail.com".

Definition unresolvable : string := "UnresolvableGrantByEmailAddress".

Definition unresolvable_message : string :=
  "This demo couldn't apply the ACL to the object because the email"
  +:+ newline +:+
  "address specified as the grantee is for a test user who does not"
  +:+ newline +:+
  "exist. For this request to succeed, you must replace the grantee"
  +:+ newline +:+
  "email with one for an existing AWS user.".

Section Driver.

(** [json.dumps] on the grants of an ACL. *)
Variable json_dumps : option (list Grant) → string.

Open Scope script_scope.

(** The body of the loop, for one file name (lines 179-198). *)
Definition upload_one (bucket : Bucket) (file_name : string) : S_ unit :=
  let object_key_file := directory_file_names +:+ file_name in
  let object_key := file_name in
  let obj_wrapper := init (Object (name bucket) object_key) in
  lift (put obj_wrapper (DataStr object_key_file)) ;;
  print_ ("Put file object with key " +:+ object_key +:+ " in bucket "
          +:+ name bucket +:+ ".") ;;
  s_try_except
    (lift (put_acl obj_wrapper grantee_email) ;;
     acl <- lift (get_acl obj_wrapper) ;;
     print_ ("Put ACL grants on object " +:+ self_key obj_wrapper +:+ ": "
             +:+ json_dumps (grants acl)))
    is_ClientError
    (fun error =>
       if String.eqb (Code error) unresolvable then
         print_ (str_mul "*" 88) ;;
         print_ unresolvable_message ;;
         print_ (str_mul "*" 88)
       else s_raise error).

(** [for file_name in names: body] *)
Fixpoint for_each (names : list string) (body : string → S_ unit)
  : S_ unit :=
  match names with
  | [] => s_ret ()
  | file_name :: rest => body file_name ;; for_each rest body
  end.

(** [bucket.create] inside its [try]: a [ClientError] is printed with its
    message, another exception passes through (lines 164-171). *)
Definition create_bucket (bucket : Bucket) : S_ unit :=
  region <- region_name ;;
  Step (Bucket_create bucket region)
    (fun r => match r with
              | inr _ => Done (Returned ())
              | inl (err, message) =>
                  if is_ClientError err then
                    print_ ("Couldn't create a bucket for the demo. Here's why: "
                            +:+ message +:+ ".")
                  else Done (Raised err)
              end).

Definition upload_react_files : S_ unit :=
  print_ (str_mul "-" 88) ;;
  print_ "Welcome to the Amazon S3 object demo!" ;;
  print_ (str_mul "-" 88) ;;
  basicConfig INFO "%(levelname)s: %(message)s" ;;
  let bucket := mkBucket "evaluationroom.com" in
  create_bucket bucket ;;
  for_each list_file_names (upload_one bucket) ;;
  print_ (str_mul "-" 88).

Close Scope script_scope.

End Driver.

(** One observed interaction of the demo. *)
Definition driver_obs : Type := { c : driver_call & driver_reply c }.

Definition DObs (c : driver_call) (r : driver_reply c) : driver_obs :=
  existT c r.

Definition driver_handler (W : Type) : Type :=
  ∀ c : driver_call, W → driver_reply c * W.

Fixpoint run {W R : Type} (h : driver_handler W) (p : script R) (w : W)
  : R * W * list driver_obs :=
  match p with
  | Done r => (r, w, [])
  | Step c k =>
      let '(r, w1) := h c w in
      let '(x, w2, tr) := run h (k r) w1 in
      (x, w2, existT c r :: tr)
  end.

Definition driver_result {W R : Type} (x : R * W * list driver_obs) : R :=
  x.1.1.
Definition driver_state {W R : Type} (x : R * W * list driver_obs) : W :=
  x.1.2.
Definition driver_trace {W R : Type} (x : R * W * list driver_obs)
  : list driver_obs := x.2.

(** The facade's part of a handler of the demo. *)
Definition facade_handler {W : Type} (h : driver_handler W) : handler W :=
  fun c => h (facade c).

Definition lift_obs (o : obs) : driver_obs :=
  existT (facade (projT1 o)) (projT2 o).

(** The calls of the facade among the interactions of the demo. *)
Definition facade_calls (tr : list driver_obs) : list call :=
  omap (fun o => match projT1 o with
                 | facade c => Some c
                 | _ => None
                 end) tr.

(** The lines printed. *)
Definition printed (tr : list driver_obs) : list string :=
  omap (fun o => match projT1 o with
                 | print line => Some line
                 | _ => None
                 end) tr.

(** The file names given to [open], in order. *)
Definition opened_paths (cs : list call) : list string :=
  omap (fun c => match c with
                 | open_rb path => Some path
                 | _ => None
                 end) cs.

(** The objects of the uploads that the client accepted, in order. *)
Definition uploaded (cs : list call) : list s3_object :=
  omap (fun c => match c with
                 | Object_put o _ _ => Some o
                 | _ => None
                 end) cs.

(** The objects whose existence the waiter confirmed, in order. *)
Definition confirmed (cs : list call) : list s3_object :=
  omap (fun c => match c with
                 | Object_wait_until_exists o => Some o
                 | _ => None
                 end) cs.

(** The exception with which a call of the facade was answered, in a
    run of the demo. *)
Definition driver_raised_by (o : driver_obs) : option exn :=
  match o with
  | existT c r =>
      match c return driver_reply c → option exn with
      | facade c => fun r => raised_by (existT c r)
      | _ => fun _ => None
      end r
  end.

Definition facade_call_of (o : driver_obs) : option call :=
  match projT1 o with
  | facade c => Some c
  | _ => None
  end.

(** The calls of the facade that were answered without an exception,
    among the interactions of the demo. *)
Definition driver_answered (tr : list driver_obs) : list call :=
  omap (fun o => match driver_raised_by o with
                 | Some _ => None
                 | None => facade_call_of o
                 end) tr.

(** The failures of [bucket.create]: exception and message. *)
Definition create_failures (tr : list driver_obs) : list (exn * string) :=
  omap (fun o => match o with
                 | existT c r =>
                     match c return driver_reply c → option (exn * string)
                     with
                     | Bucket_create _ _ =>
                         fun r => match r with
                                  | inl em => Some em
                                  | inr _ => None
                                  end
                     | _ => fun _ => None
                     end r
                 end) tr.

Definition is_acl_call (c : call) : bool :=
  match c with
  | ObjectAcl_load _ | ObjectAcl_put _ _ => true
  | _ => false
  end.

(** The exceptions the demo catches and explains: a [ClientError] with
    the code of an unresolvable grantee, raised while the ACL is read or
    written. *)
Definition swallowed (c : call) (e : exn) : bool :=
  is_acl_call c && is_ClientError e && String.eqb (Code e) unresolvable.

(** What the demo may touch: the objects of the bucket evaluationroom.com
    under the three keys, and the three files of the build directory. *)
Definition in_scope (c : call) : Prop :=
  (∀ o, o ∈ addressed c →
        bucket_name o = "evaluationroom.com" ∧ key o ∈ list_file_names) ∧
  listed c = [] ∧
  (∀ path, path ∈ opened_paths [c] →
           ∃ k, k ∈ list_file_names ∧ path = directory_file_names +:+ k).

(** What must hold at each call of the facade that raised, in a run of
    the demo: [P c e post] for the call, the exception and the
    interactions after it. *)
Fixpoint each_facade_failure (P : call → exn → list driver_obs → Prop)
    (tr : list driver_obs) : Prop :=
  match tr with
  | [] => True
  | o :: post =>
      match facade_call_of o, driver_raised_by o with
      | Some c, Some e => P c e post
      | _, _ => True
      end ∧ each_facade_failure P post
  end.

(** The exception an outcome carries. *)
Definition failure_of {R : Type} (o : outcome R) : option exn :=
  match o with
  | Returned _ => None
  | Raised e => Some e
  end.

(** The calls to the storage client among the interactions of the demo,
    the creation of the bucket included. *)
Definition is_request (c : driver_call) : bool :=
  match c with
  | facade c => is_remote c
  | Bucket_create _ _ => true
  | _ => false
  end.

Definition requests (tr : list driver_obs) : list driver_call :=
  filter (fun c => is_request c = true)
    (map (fun o : driver_obs => projT1 o) tr).

(** After a failure nothing more is asked of the storage client, no file
    is opened and nothing is printed. *)
Definition quiet (post : list driver_obs) : Prop :=
  requests post = [] ∧
  opened_paths (facade_calls post) = [] ∧
  printed post = [].

(** What must hold at each call of an operation that raised, the calls
    to the file system included. *)
Fixpoint each_raise (P : call → exn → list obs → Prop) (tr : list obs)
  : Prop :=
  match tr with
  | [] => True
  | o :: post =>
      match raised_by o with
      | Some e => P (call_of o) e post
      | None => True
      end ∧ each_raise P post
  end.

Definition is_acl_op (op : operation) : bool :=
  match op with
  | op_put_acl _ | op_get_acl => true
  | _ => false
  end.

(** At a call of the facade that raised [e], in a part of the demo that
    ended as [res]: the part raised [e] and nothing followed; the call is
    of the class [C]. *)
Definition fatal_at (C : call → bool) (res : option exn)
    (c : call) (e : exn) (post : list driver_obs) : Prop :=
  C c = true ∧ res = Some e ∧ quiet post.

(** The same where the demo explains the exceptions it catches and goes
    on. *)
Definition explained_or_fatal (res : option exn)
    (c : call) (e : exn) (post : list driver_obs) : Prop :=
  if swallowed c e then unresolvable_message ∈ printed post
  else res = Some e ∧ quiet post.

(** ** An in-memory world for the demo *)

(** Modelled from the spec: what the demo uses besides the facade and is
    not part of the module: standard output, the configured region of the
    client, and the creation of the bucket (section 6), whose answer is a
    setting of the world. *)
Record DemoWorld : Type := mkDemo {
  service : World;
  stdout : list string;
  region : option string;
  create_answer : (exn * string) + unit
}.

Definition with_service (s : World) (d : DemoWorld) : DemoWorld :=
  mkDemo s (stdout d) (region d) (create_answer d).

Definition drive : driver_handler DemoWorld :=
  fun c =>
    match c return DemoWorld → driver_reply c * DemoWorld with
    | facade c =>
        fun d => let '(r, s) := serve c (service d) in (r, with_service s d)
    | print line =>
        fun d => (tt, mkDemo (service d) (stdout d ++ [line]) (region d)
                             (create_answer d))
    | logging_basicConfig _ _ => fun d => (tt, d)
    | client_region_name => fun d => (region d, d)
    | Bucket_create _ _ => fun d => (create_answer d, d)
    end.

(** [json.dumps] for the fixtures: the permissions of the grants. *)
Definition permission_name (p : Permission) : string :=
  match p with
  | FULL_CONTROL => "FULL_CONTROL"
  | WRITE => "WRITE"
  | WRITE_ACP => "WRITE_ACP"
  | READ => "READ"
  | READ_ACP => "READ_ACP"
  end.

Definition demo_json_dumps (g : option (list Grant)) : string :=
  match g with
  | None => "null"
  | Some l =>
      "[" +:+ String.concat ", " (map (fun x => permission_name (permission x)) l)
      +:+ "]"
  end.

Definition build_file (k : string) : string := directory_file_names +:+ k.

(** The three files of the build are there and the service fails
    nothing. *)
Definition ready_world : World :=
  mkWorld ∅ demo_owner 20 (fun _ => None) (fun _ => 2) 0
    (list_to_map
       [(build_file "js/index_exam.js", ["e"%byte]);
        (build_file "js/index_public.js", ["p"%byte]);
        (build_file "js/index.js", ["i"%byte])])
    ∅ 3 [].

Definition ready_demo : DemoWorld :=
  mkDemo ready_world [] (Some "us-west-2") (inr ()).

(** The service cannot resolve the grantee of the first file (request 3
    is the first [acl.put]; requests 0 and 1 are the upload and the wait,
    2 the read of the ACL). *)
Definition unresolvable_demo : DemoWorld :=
  mkDemo
    (mkWorld ∅ demo_owner 20
       (fun n => if n is 3 then Some unresolvable else None)
       (fun _ => 2) 0 (files ready_world) ∅ 3 [])
    [] (Some "us-west-2") (inr ()).

(** The second file of the build is missing. *)
Definition incomplete_demo : DemoWorld :=
  mkDemo
    (mkWorld ∅ demo_owner 20 (fun _ => None) (fun _ => 2) 0
       (list_to_map
          [(build_file "js/index_exam.js", ["e"%byte]);
           (build_file "js/index.js", ["i"%byte])])
       ∅ 3 [])
    [] (Some "us-west-2")
    (inl (ClientError "BucketAlreadyOwnedByYou", "Your previous request to create the named bucket succeeded and you already own it")).

(** The uploads and the confirmations in a part of the demo. *)
Definition did (tr : list driver_obs) : list s3_object * list s3_object :=
  (uploaded (driver_answered tr), confirmed (driver_answered tr)).

Definition did_app (a b : list s3_object * list s3_object)
  : list s3_object * list s3_object :=
  (a.1 ++ b.1, a.2 ++ b.2).

(** The interactions of the loop of the demo: calls of the facade and
    lines printed. *)
Definition loop_obs (o : driver_obs) : Prop :=
  match projT1 o with
  | facade _ | print _ => True
  | _ => False
  end.

Definition creation_message (message : string) : string :=
  "Couldn't create a bucket for the demo. Here's why: " +:+ message +:+ ".".

(** The service fails no request and shows every object it has written
    within the polls of the waiter. *)
Definition healthy (w : World) : Prop :=
  (∀ n, fault_at w n = None) ∧ (∀ n, lag_at w n < attempts w).

(** Two states of the same world: the account, the waiter, the faults and
    lags to come and the local files are the same. *)
Definition same_setting (w w' : World) : Prop :=
  account w' = account w ∧ attempts w' = attempts w ∧
  fault_at w' = fault_at w ∧ lag_at w' = lag_at w ∧ files w' = files w.

(** The policy of an object after the demo: full control for the owner,
    public read, and read for the grantee of the demo. *)
Definition granted_policy (who : Owner) : AccessControlPolicy :=
  mkPolicy [mkGrant (CanonicalUser who) FULL_CONTROL; public_read_grant;
            email_read_grant grantee_email] (Some who).

(** The file a call to [open] returned. *)
Definition opened_file (o : obs) : option file :=
  match o with
  | existT c r =>
      match c return reply c → option file with
      | open_rb _ => fun r => match r with
                              | inr f => Some f
                              | inl _ => None
                              end
      | _ => fun _ => None
      end r
  end.

(** The files that [open] returned during a run, in order. *)
Definition files_opened (tr : list obs) : list file := omap opened_file tr.

(** The interactions of the facade among those of the demo. *)
Definition facade_obs (o : driver_obs) : option obs :=
  match o with
  | existT c r =>
      match c return driver_reply c → option obs with
      | facade c => fun r => Some (existT c r)
      | _ => fun _ => None
      end r
  end.

Definition facade_part (tr : list driver_obs) : list obs := omap facade_obs tr.

(** The world of [ready_demo] under an account that has no display
    name. *)
Definition nameless_demo : DemoWorld :=
  mkDemo
    (mkWorld ∅ nameless_owner 20 (fun _ => None) (fun _ => 2) 0
       (files ready_world) ∅ 3 [])
    [] (Some "us-west-2") (inr ()).


(** * Properties *)

(** ** Running programs *)

Lemma exec_pbind {W A B : Type} (h : handler W) (p : prog A)
    (f : A → prog B) (w : W) :
  exec h (pbind p f) w =
  let r1 := exec h p w in
  let r2 := exec h (f (result_of r1)) (state_of r1) in
  (result_of r2, state_of r2, trace_of r1 ++ trace_of r2).
Proof.
  revert w. induction p as [a | c k IH]; intros w; cbn.
  - by destruct (exec h (f a) w) as [[? ?] ?].
  - destruct (h c w) as [r w1]. rewrite IH. cbn.
    destruct (exec h (k r) w1) as [[a w2] t1]. cbn.
    by destruct (exec h (f a) w2) as [[? ?] ?].
Qed.

(** A part of the state that the local calls leave alone is the same
    after a run that made no call to the storage client. *)
Lemma exec_frame {W S R : Type} (h : handler W) (remote : W → S)
    (p : prog R) (w : W) :
  (∀ c w, is_remote c = false → remote (h c w).2 = remote w) →
  remote_calls (trace_of (exec h p w)) = [] →
  remote (state_of (exec h p w)) = remote w.
Proof.
  intros Hloc. revert w. induction p as [a | c k IH]; intros w; cbn; [done |].
  destruct (h c w) as [r w1] eqn:Hc.
  destruct (exec h (k r) w1) as [[a w2] tr] eqn:Hk. cbn.
  unfold remote_calls. cbn [map call_of projT1].
  destruct (is_remote c) eqn:Hr.
  - case_decide; [discriminate | done].
  - case_decide; [done |].
    intros Htr. specialize (IH r w1). rewrite Hk in IH.
    specialize (Hloc c w Hr). rewrite Hc in Hloc. cbn in *.
    rewrite <- Hloc. by apply IH.
Qed.

(** The local calls of the in-memory world do not touch the store or the
    request counter. *)
Lemma serve_local_frame (c : call) (w : World) :
  is_remote c = false → remote_state (serve c w).2 = remote_state w.
Proof.
  destruct c; try discriminate; intros _; unfold serve; cbn; try done.
  unfold serve_open. by destruct (files w !! path).
Qed.

(** ** put *)

(** C2.  When [open] raises an [IOError] for the file name given to [put],
    [put] raises that exception and makes no call to the storage client:
    the only interactions are the failed [open] and the log line, and any
    part of the state that local calls leave alone (the remote objects, a
    call counter of a test double) is unchanged. *)
Theorem put_unopenable_file_no_remote_call :
  ∀ (W S : Type) (h : handler W) (remote : W → S)
    (self : ObjectWrapper) (path : string) (w w1 : W) (e : exn),
    (∀ c w, is_remote c = false → remote (h c w).2 = remote w) →
    h (open_rb path) w = (inl e, w1) →
    is_IOError e = true →
    let r := exec h (put self (DataStr path)) w in
    result_of r = Raised e ∧
    remote_calls (trace_of r) = [] ∧
    length (remote_calls (trace_of r)) = 0 ∧
    remote (state_of r) = remote w.
Proof.
  intros W S h remote self path w w1 e Hloc Ho He r.
  assert (Hr : result_of r = Raised e ∧ remote_calls (trace_of r) = []).
  { subst r. unfold_facade. cbn. rewrite Ho. cbn. rewrite He. cbn.
    step h. done. }
  destruct Hr as [Hres Hno]. repeat split; try done.
  - by rewrite Hno.
  - by apply exec_frame.
Qed.

Lemma put_unopenable_file_witness :
  let r := exec serve (put new_object (DataStr "build/js/missing.js"))
             demo_world in
  result_of r = Raised (IOError "No such file or directory: build/js/missing.js") ∧
  remote_calls (trace_of r) = [] ∧
  length (remote_calls (trace_of r)) = 0 ∧
  remote_state (state_of r) = remote_state demo_world.
Proof.
  apply (put_unopenable_file_no_remote_call World _ serve remote_state
           new_object "build/js/missing.js" demo_world demo_world).
  - exact serve_local_frame.
  - reflexivity.
  - reflexivity.
Defined.

(** C3.  When [open] returns a file for the name given to [put], the last
    interaction of [put] is the [close] of that file, whatever the storage
    client answers: on the path where the upload and the wait succeed and
    on every path where one of them raises. *)
Theorem put_closes_opened_file :
  ∀ (W : Type) (h : handler W) (self : ObjectWrapper) (path : string)
    (w w1 : W) (f : file),
    h (open_rb path) w = (inr f, w1) →
    let r := exec h (put self (DataStr path)) w in
    last (trace_of r) = Some (Obs (file_close f) ()) ∧
    closed_files (trace_of r) = [f].
Proof.
  intros W h self path w w1 f Ho r. subst r.
  unfold_facade. cbn. rewrite Ho. cbn.
  step h. destruct r as [e | []]; cbn.
  - destruct (is_ClientError e); cbn.
    + step h. step h. destruct r0, r. done.
    + step h. destruct r. done.
  - step h. destruct r as [e | []]; cbn.
    + destruct (is_ClientError e); cbn.
      * step h. step h. destruct r0, r. done.
      * step h. destruct r. done.
    + step h. step h. destruct r0, r. done.
Qed.

Lemma put_closes_opened_file_witness :
  let r := exec serve (put new_object (DataStr "build/js/index.js"))
             demo_world in
  last (trace_of r) = Some (Obs (file_close 3) ()) ∧
  closed_files (trace_of r) = [3].
Proof.
  apply (put_closes_opened_file World serve new_object "build/js/index.js"
           demo_world
           (set_opened (<[3 := ["i"%byte; "j"%byte]]> ∅) 4 demo_world) 3).
  reflexivity.
Defined.

(** On the in-memory file system the file opened by [put] is not open any
    more when [put] is over, on any path. *)
Lemma put_releases_file (self : ObjectWrapper) (path : string) (w w1 : World)
    (f : file) :
  serve (open_rb path) w = (inr f, w1) →
  opened (state_of (exec serve (put self (DataStr path)) w)) !! f = None.
Proof.
  intros Ho. unfold_facade. cbn. rewrite Ho. cbn. crunch serve.
  all: match goal with
       | E : serve (file_close _) _ = _ |- _ =>
           unfold serve, serve_close in E; injection E as <-
       end.
  all: cbn; apply lookup_delete_eq.
Qed.

(** ** Failures of the storage client *)

Lemma each_remote_failure_split (P : exn → list obs → Prop) (tr : list obs) :
  each_remote_failure P tr →
  ∀ pre o post e,
    tr = pre ++ o :: post →
    is_remote (call_of o) = true →
    raised_by o = Some e →
    P e post.
Proof.
  intros Htr pre. revert tr Htr.
  induction pre as [| x pre IH]; intros tr Htr o post e -> Hrem He.
  - cbn in Htr. rewrite Hrem, He in Htr. tauto.
  - cbn in Htr. destruct Htr as [_ Htr]. by eapply IH.
Qed.

Ltac close_failure :=
  cbn; repeat split; try done; try congruence; try (by eexists).

Lemma perform_failures (W : Type) (h : handler W) (self : ObjectWrapper)
    (op : operation) (w : W) :
  let r := exec h (perform self op) w in
  each_remote_failure
    (fun e post =>
       result_of r = Raised e ∧ remote_calls post = [] ∧
       info_lines (trace_of r) = [] ∧
       if is_ClientError e
       then ∃ fmt,
              exception_lines (trace_of r)
              = [(fmt, resource_identity self op)]
       else exception_lines (trace_of r) = [])
    (trace_of r).
Proof.
  destruct op as [[b | path] | | bucket [[| a p] |] | dest | email |];
    unfold_facade; cbn; crunch h; close_failure.
Qed.

(** C6, as amended.  In each of the six operations, an exception that a
    call to the storage client raises comes out of the operation
    unchanged, whatever its class; no further call to the client is made
    after it (no retry, no recovery) and the operation logs no [info]
    line.  When the exception is a [ClientError] the operation logs
    exactly one [exception] line, whose arguments are the identity of the
    resource: key and bucket name for [put] and [get], these and bucket
    name and key of the destination for [copy], the bucket name for
    [list], and the key alone for [put_acl] and [get_acl].  When the
    exception is of another class the operation logs no line at all. *)
Theorem client_failure_propagates :
  ∀ (W : Type) (h : handler W) (self : ObjectWrapper) (op : operation)
    (w : W) (pre : list obs) (o : obs) (post : list obs) (e : exn),
    let r := exec h (perform self op) w in
    trace_of r = pre ++ o :: post →
    is_remote (call_of o) = true →
    raised_by o = Some e →
    result_of r = Raised e ∧
    remote_calls post = [] ∧
    info_lines (trace_of r) = [] ∧
    if is_ClientError e
    then ∃ fmt,
           exception_lines (trace_of r) = [(fmt, resource_identity self op)]
    else exception_lines (trace_of r) = [].
Proof.
  intros W h self op w pre o post e r Htr Hrem He.
  exact (each_remote_failure_split _ _ (perform_failures W h self op w)
           pre o post e Htr Hrem He).
Qed.

Lemma client_failure_propagates_witness :
  let r := exec serve (put_acl demo_object "fcernaf@gmail.com")
             unresolvable_world in
  result_of r = Raised (ClientError "UnresolvableGrantByEmailAddress") ∧
  remote_calls
    [Obs (logger_exception "Couldn't add ACL to object '%s'." ["js/a.js"]) ()]
    = [] ∧
  info_lines (trace_of r) = [] ∧
  ∃ fmt,
    exception_lines (trace_of r)
    = [(fmt, resource_identity demo_object (op_put_acl "fcernaf@gmail.com"))].
Proof.
  eapply (client_failure_propagates World serve demo_object
            (op_put_acl "fcernaf@gmail.com") unresolvable_world
            [_] _ [_] (ClientError "UnresolvableGrantByEmailAddress")).
  - vm_compute. reflexivity.
  - reflexivity.
  - reflexivity.
Defined.

(** Also when the exception that the storage client raises is not a
    [ClientError] but the [WaiterError] of the wait after [copy]: it comes
    out of [copy] unchanged and nothing is logged. *)
Lemma copy_waiter_failure_propagates_unlogged :
  let r := exec serve (copy demo_object (Object "other" "copy.js"))
             slow_world in
  result_of r = Raised (WaiterError "Max attempts exceeded") ∧
  exception_lines (trace_of r) = [] ∧
  info_lines (trace_of r) = [].
Proof. vm_compute. done. Qed.

(** C6, as stated, fails: when the object written by [put] does not become
    visible within the polls of the waiter, [wait_until_exists] raises a
    [WaiterError]; [put] lets it through and logs nothing. *)
Lemma waiter_failure_is_not_logged :
  ¬ logs_and_reraises serve (put new_object (DataBytes ["i"%byte]))
      slow_world (key (object new_object)).
Proof.
  intros H.
  assert (Htr :
    trace_of (exec serve (put new_object (DataBytes ["i"%byte])) slow_world)
    = [Obs (Object_put (object new_object) (BodyBytes ["i"%byte])
              "public-read") (inr ())]
      ++ Obs (Object_wait_until_exists (object new_object))
           (inl (WaiterError "Max attempts exceeded")) :: [])
    by (vm_compute; reflexivity).
  destruct (H _ _ _ (WaiterError "Max attempts exceeded") Htr eq_refl eq_refl)
    as (_ & _ & fmt & args & Hin & _).
  by apply elem_of_nil in Hin.
Qed.

(** ** list *)

Lemma exec_list_unfiltered (bucket : Bucket) (w : World) :
  result_of (exec serve (list_ bucket None) w) =
  match fault w with
  | Some code => Raised (ClientError code)
  | None => Returned (bucket_objects w (name bucket))
  end.
Proof.
  unfold_facade. cbn. unfold serve. cbn. unfold serve_all.
  destruct (fault w) as [code |]; cbn; done.
Qed.

(** C9.  With the empty string as prefix, [list] is the same program as
    with no prefix: its one call to the storage client is the unfiltered
    [objects.all()], and on the in-memory service it returns every object
    of the bucket unless the service fails the request. *)
Theorem list_empty_prefix_is_unfiltered :
  ∀ (bucket : Bucket),
    list_ bucket (Some EmptyString) = list_ bucket None ∧
    (∀ (W : Type) (h : handler W) (w : W),
       remote_calls (trace_of (exec h (list_ bucket (Some EmptyString)) w))
       = [objects_all bucket]) ∧
    (∀ w : World,
       result_of (exec serve (list_ bucket (Some EmptyString)) w) =
       match fault w with
       | Some code => Raised (ClientError code)
       | None => Returned (bucket_objects w (name bucket))
       end).
Proof.
  intros bucket. split; [reflexivity |]. split.
  - intros W h w. unfold_facade. cbn. crunch h; done.
  - intros w. apply exec_list_unfiltered.
Qed.

(** ** put_acl *)

(** C10.  When the ACL read at the start of [put_acl] has grants [G]
    (none when the response has no list) and owner [O], the calls of
    [put_acl] to the storage client are that read and one write of the
    policy whose owner is [O] and whose grants are [G] followed by the new
    grant: the policy written differs from the one read in the grant list
    only, and when [G] is empty the list written is the new grant alone. *)
Theorem put_acl_writes_back_owner :
  ∀ (W : Type) (h : handler W) (self : ObjectWrapper) (email : string)
    (w w1 : W) (acl : ObjectAcl),
    h (ObjectAcl_load (object self)) w = (inr acl, w1) →
    ∃ p : AccessControlPolicy,
      remote_calls (trace_of (exec h (put_acl self email) w))
      = [ObjectAcl_load (object self); ObjectAcl_put (object self) p] ∧
      Owner_ p = owner acl ∧
      Grants p = default [] (grants acl) ++ [email_read_grant email] ∧
      (default [] (grants acl) = [] → Grants p = [email_read_grant email]).
Proof.
  intros W h self email w w1 acl Hload.
  exists {| Grants := grants_or_empty (grants acl) ++ [email_read_grant email];
            Owner_ := owner acl |}.
  assert (Hg : grants_or_empty (grants acl) = default [] (grants acl)).
  { by destruct (grants acl) as [[| x l] |]. }
  split; [| split; [done | split]].
  - unfold_facade. cbn. rewrite Hload. cbn. crunch h; done.
  - cbn. by rewrite Hg.
  - cbn. rewrite Hg. by intros ->.
Qed.

Lemma put_acl_writes_back_owner_witness :
  ∃ p : AccessControlPolicy,
    remote_calls
      (trace_of (exec serve (put_acl demo_object "fcernaf@gmail.com")
                   demo_world))
    = [ObjectAcl_load (object demo_object);
       ObjectAcl_put (object demo_object) p] ∧
    Owner_ p = Some demo_owner ∧
    Grants p = [mkGrant (CanonicalUser demo_owner) FULL_CONTROL]
                 ++ [email_read_grant "fcernaf@gmail.com"] ∧
    ([mkGrant (CanonicalUser demo_owner) FULL_CONTROL] = [] →
     Grants p = [email_read_grant "fcernaf@gmail.com"]).
Proof.
  apply (put_acl_writes_back_owner World serve demo_object
           "fcernaf@gmail.com" demo_world (tick demo_world)
           {| acl_object := object demo_object;
              grants := Some [mkGrant (CanonicalUser demo_owner) FULL_CONTROL];
              owner := Some demo_owner |}).
  reflexivity.
Defined.

(** ** The in-memory service, call by call *)

Lemma serve_info (fmt : string) (args : list string) (w w1 : World)
    (r : unit) :
  serve (logger_info fmt args) w = (r, w1) →
  w1 = add_log (mkLog INFO fmt args) w.
Proof. unfold serve. by intros [= _ <-]. Qed.

Lemma serve_close_inv (f : file) (w w1 : World) (r : unit) :
  serve (file_close f) w = (r, w1) →
  w1 = set_opened (delete f (opened w)) (next_file w) w.
Proof. unfold serve, serve_close. by intros [= _ <-]. Qed.

Lemma serve_open_returned (path : string) (f : file) (w w1 : World) :
  serve (open_rb path) w = (inr f, w1) →
  ∃ bs, files w !! path = Some bs ∧ f = next_file w ∧
        w1 = set_opened (<[f := bs]> (opened w)) (S f) w.
Proof.
  unfold serve, serve_open. destruct (files w !! path) as [bs |]; [| done].
  intros [= <- <-]. by exists bs.
Qed.

Lemma serve_put_returned (o : s3_object) (b : put_body) (acl : string)
    (w w1 : World) :
  serve (Object_put o b acl) w = (inr (), w1) →
  ∃ bs gs,
    body_bytes w b = Some bs ∧ fault w = None ∧
    canned_acl acl (account w) = Some gs ∧
    w1 = tick (set_store
                 (<[address o := mkRemote bs (mkPolicy gs (Some (account w)))
                                          (lag_at w (calls w))]> (store w)) w).
Proof.
  unfold serve, serve_put.
  destruct (body_bytes w b) as [bs |]; [| done].
  destruct (fault w); [done |].
  destruct (canned_acl acl (account w)) as [gs |]; [| done].
  intros [= <-]. by exists bs, gs.
Qed.

Lemma serve_wait_returned (o : s3_object) (w w1 : World) :
  serve (Object_wait_until_exists o) w = (inr (), w1) →
  ∃ ob,
    store w !! address o = Some ob ∧ fault w = None ∧
    lag ob < attempts w ∧
    w1 = tick (set_store
                 (<[address o := mkRemote (content ob) (policy ob) 0]>
                    (store w)) w).
Proof.
  unfold serve, serve_wait. destruct (fault w); [done |].
  destruct (store w !! address o) as [ob |]; [| done].
  case_decide; [| done]. intros [= <-]. by exists ob.
Qed.

Lemma serve_get_returned (o : s3_object) (w w1 : World)
    (out : GetObjectOutput) :
  serve (Object_get o) w = (inr out, w1) →
  ∃ ob, visible w o = Some ob ∧ fault w = None ∧
        read (Body out) = content ob ∧ w1 = tick w.
Proof.
  unfold serve, serve_get. destruct (fault w); [done |].
  destruct (visible w o) as [ob |]; [| done].
  intros [= <- <-]. by exists ob.
Qed.

Lemma serve_copy_returned (dest src : s3_object) (w w1 : World) :
  serve (Object_copy_from dest src) w = (inr (), w1) →
  ∃ ob,
    visible w src = Some ob ∧ fault w = None ∧
    w1 = tick (set_store
                 (<[address dest :=
                      mkRemote (content ob)
                        (mkPolicy [mkGrant (CanonicalUser (account w))
                                           FULL_CONTROL] (Some (account w)))
                        (lag_at w (calls w))]> (store w)) w).
Proof.
  unfold serve, serve_copy. destruct (fault w); [done |].
  destruct (visible w src) as [ob |]; [| done].
  intros [= <-]. by exists ob.
Qed.

Lemma serve_acl_load_returned (o : s3_object) (w w1 : World)
    (acl : ObjectAcl) :
  serve (ObjectAcl_load o) w = (inr acl, w1) →
  ∃ ob, visible w o = Some ob ∧ fault w = None ∧
        acl = mkAcl o (Some (Grants (policy ob))) (Owner_ (policy ob)) ∧
        w1 = tick w.
Proof.
  unfold serve, serve_acl_load. destruct (fault w); [done |].
  destruct (visible w o) as [ob |]; [| done].
  intros [= <- <-]. by exists ob.
Qed.

Lemma serve_acl_put_returned (o : s3_object) (p : AccessControlPolicy)
    (w w1 : World) :
  serve (ObjectAcl_put o p) w = (inr (), w1) →
  ∃ ob, visible w o = Some ob ∧ fault w = None ∧
        w1 = tick (set_store
                     (<[address o := mkRemote (content ob) p (lag ob)]>
                        (store w)) w).
Proof.
  unfold serve, serve_acl_put. destruct (fault w); [done |].
  destruct (visible w o) as [ob |]; [| done].
  intros [= <-]. by exists ob.
Qed.

Lemma visible_Some (w : World) (o : s3_object) (ob : RemoteObject) :
  visible w o = Some ob ↔ store w !! address o = Some ob ∧ lag ob = 0.
Proof.
  unfold visible. destruct (store w !! address o) as [ob' |].
  - destruct (lag ob') eqn:Hl.
    + split; [by intros [= <-] | by intros [[= <-] _]].
    + split; [done | intros [[= <-] ?]; congruence].
  - split; [done | by intros [? _]].
Qed.

(** What [get] returns on the in-memory service. *)
Lemma exec_get (self : ObjectWrapper) (w : World) :
  result_of (exec serve (get self) w) =
  match fault w with
  | Some code => Raised (ClientError code)
  | None =>
      match visible w (object self) with
      | Some ob => Returned (content ob)
      | None => Raised (ClientError "NoSuchKey")
      end
  end.
Proof.
  unfold_facade. cbn. unfold serve. cbn. unfold serve_get.
  destruct (fault w) as [code |]; cbn; [done |].
  by destruct (visible w (object self)) as [ob |]; cbn.
Qed.

Lemma canned_public_read (who : Owner) :
  canned_acl "public-read" who
  = Some [mkGrant (CanonicalUser who) FULL_CONTROL; public_read_grant].
Proof. reflexivity. Qed.

(** The policy of an object created with [ACL='public-read']. *)
Lemma put_returned (self : ObjectWrapper) (data : put_data_arg) (w : World) :
  let r := exec serve (put self data) w in
  result_of r = Returned () →
  ∃ bs body,
    payload_bytes w data = Some bs ∧
    fault w = None ∧
    remote_calls (trace_of r)
    = [Object_put (object self) body "public-read";
       Object_wait_until_exists (object self)] ∧
    Obs (Object_wait_until_exists (object self)) (inr ()) ∈ trace_of r ∧
    store (state_of r)
    = <[address (object self) :=
          mkRemote bs
            (mkPolicy [mkGrant (CanonicalUser (account w)) FULL_CONTROL;
                       public_read_grant] (Some (account w))) 0]> (store w) ∧
    calls (state_of r) = S (S (calls w)) ∧
    fault_at (state_of r) = fault_at w.
Proof.
  destruct data as [b | path]; unfold_facade; cbn.
  - crunch serve; try discriminate. intros _.
    apply serve_put_returned in E as (bs & gs & Hb & Hf & Hc & ->).
    apply serve_wait_returned in E0 as (ob & Hob & _ & _ & ->).
    apply serve_info in E1 as ->.
    rewrite canned_public_read in Hc. cbn in Hb, Hob |- *.
    rewrite lookup_insert_eq in Hob.
    injection Hb as <-. injection Hc as <-. injection Hob as <-.
    exists b, (BodyBytes b). cbn.
    rewrite insert_insert_eq. repeat split; try done.
    apply list_elem_of_In. cbn. tauto.
  - crunch serve; try discriminate. intros _.
    apply serve_open_returned in E as (bs0 & Hfile & -> & ->).
    apply serve_put_returned in E0 as (bs & gs & Hb & Hf & Hc & ->).
    apply serve_wait_returned in E1 as (ob & Hob & _ & _ & ->).
    apply serve_info in E2 as ->. apply serve_close_inv in E3 as ->.
    rewrite canned_public_read in Hc. cbn in Hb, Hob, Hf, Hc |- *.
    rewrite lookup_insert_eq in Hob. rewrite lookup_insert_eq in Hb.
    injection Hb as <-. injection Hc as <-. injection Hob as <-.
    exists bs0, (BodyFile (next_file w)). cbn.
    rewrite insert_insert_eq. repeat split; try done.
    apply list_elem_of_In. cbn. tauto.
Qed.

(** C7.  When [put] returns (it returns nothing), its calls to the storage
    client were the upload with [ACL='public-read'] and then the wait for
    the object to exist, which answered that it exists; afterwards the
    object is visible and holds the bytes of the payload (the bytes given,
    or the content of the file named) under a policy with the public-read
    grant. *)
Theorem put_success_effect :
  ∀ (w : World) (self : ObjectWrapper) (data : put_data_arg),
    let r := exec serve (put self data) w in
    result_of r = Returned () →
    ∃ bs body ob,
      payload_bytes w data = Some bs ∧
      remote_calls (trace_of r)
      = [Object_put (object self) body "public-read";
         Object_wait_until_exists (object self)] ∧
      Obs (Object_wait_until_exists (object self)) (inr ()) ∈ trace_of r ∧
      visible (state_of r) (object self) = Some ob ∧
      content ob = bs ∧
      public_read_grant ∈ Grants (policy ob).
Proof.
  intros w self data r Hret. subst r.
  destruct (put_returned self data w Hret)
    as (bs & body & Hbs & _ & Hcalls & Hwait & Hstore & _ & _).
  exists bs, body. eexists. repeat split; try done.
  - apply visible_Some. rewrite Hstore, lookup_insert_eq. done.
  - done.
  - cbn. set_solver.
Qed.

Lemma put_success_effect_witness :
  let r := exec serve (put new_object (DataStr "build/js/index.js"))
             demo_world in
  ∃ bs body ob,
    payload_bytes demo_world (DataStr "build/js/index.js") = Some bs ∧
    remote_calls (trace_of r)
    = [Object_put (object new_object) body "public-read";
       Object_wait_until_exists (object new_object)] ∧
    Obs (Object_wait_until_exists (object new_object)) (inr ()) ∈ trace_of r ∧
    visible (state_of r) (object new_object) = Some ob ∧
    content ob = bs ∧
    public_read_grant ∈ Grants (policy ob).
Proof.
  apply (put_success_effect demo_world new_object
           (DataStr "build/js/index.js")).
  vm_compute. reflexivity.
Defined.

(** C4.  After a [put] of the bytes [P] that returned, [get] on the same
    object returns [P], unless the service fails that request. *)
Theorem put_get_roundtrip :
  ∀ (w : World) (self : ObjectWrapper) (P : bytes),
    let r := exec serve (put self (DataBytes P)) w in
    result_of r = Returned () →
    result_of (exec serve (get self) (state_of r)) =
    match fault (state_of r) with
    | Some code => Raised (ClientError code)
    | None => Returned P
    end.
Proof.
  intros w self P r Hret. subst r.
  destruct (put_returned self (DataBytes P) w Hret)
    as (bs & body & [= <-] & _ & _ & _ & Hstore & _ & _).
  rewrite exec_get.
  destruct (fault (state_of _)); [done |].
  erewrite (proj2 (visible_Some _ _ _)).
  2: { rewrite Hstore, lookup_insert_eq. done. }
  done.
Qed.

Lemma put_get_roundtrip_witness :
  let r := exec serve (put new_object (DataBytes ["i"%byte; "j"%byte]))
             demo_world in
  result_of (exec serve (get new_object) (state_of r)) =
  match fault (state_of r) with
  | Some code => Raised (ClientError code)
  | None => Returned ["i"%byte; "j"%byte]
  end.
Proof.
  apply (put_get_roundtrip demo_world new_object ["i"%byte; "j"%byte]).
  vm_compute. reflexivity.
Defined.

(** ** copy *)

Lemma copy_returned (self : ObjectWrapper) (dest : s3_object) (w : World) :
  let r := exec serve (copy self dest) w in
  result_of r = Returned () →
  ∃ ob,
    visible w (object self) = Some ob ∧
    fault w = None ∧
    remote_calls (trace_of r)
    = [Object_copy_from dest (object self); Object_wait_until_exists dest] ∧
    Obs (Object_wait_until_exists dest) (inr ()) ∈ trace_of r ∧
    store (state_of r)
    = <[address dest :=
          mkRemote (content ob)
            (mkPolicy [mkGrant (CanonicalUser (account w)) FULL_CONTROL]
                      (Some (account w))) 0]> (store w).
Proof.
  unfold_facade; cbn. crunch serve; try discriminate. intros _.
  apply serve_copy_returned in E as (ob & Hsrc & Hf & ->).
  apply serve_wait_returned in E0 as (ob' & Hob & _ & _ & ->).
  apply serve_info in E1 as ->. cbn in Hob |- *.
  rewrite lookup_insert_eq in Hob. injection Hob as <-.
  exists ob. cbn. rewrite insert_insert_eq. repeat split; try done.
  apply list_elem_of_In. cbn. tauto.
Qed.

(** C8.  When [copy] returns, its calls to the storage client were the
    server-side copy and then the wait for the destination to exist,
    which answered that it exists; and [get] on the destination then
    returns the bytes that [get] on the source returned when the copy
    was made, unless the service fails that request. *)
Theorem copy_then_get :
  ∀ (w : World) (self : ObjectWrapper) (dest_object : s3_object),
    let r := exec serve (copy self dest_object) w in
    result_of r = Returned () →
    remote_calls (trace_of r)
    = [Object_copy_from dest_object (object self);
       Object_wait_until_exists dest_object] ∧
    Obs (Object_wait_until_exists dest_object) (inr ()) ∈ trace_of r ∧
    ∃ b : bytes,
      result_of (exec serve (get self) w) = Returned b ∧
      result_of (exec serve (get (init dest_object)) (state_of r)) =
      match fault (state_of r) with
      | Some code => Raised (ClientError code)
      | None => Returned b
      end.
Proof.
  intros w self dest r Hret. subst r.
  destruct (copy_returned self dest w Hret)
    as (ob & Hsrc & Hf & Hcalls & Hwait & Hstore).
  repeat split; try done. exists (content ob). split.
  - by rewrite exec_get, Hf, Hsrc.
  - rewrite exec_get. destruct (fault (state_of _)); [done |].
    erewrite (proj2 (visible_Some _ _ _)).
    2: { cbn [init object]. rewrite Hstore, lookup_insert_eq. done. }
    done.
Qed.

Lemma copy_then_get_witness :
  let dest := Object "other" "copy.js" in
  let r := exec serve (copy demo_object dest) demo_world in
  remote_calls (trace_of r)
  = [Object_copy_from dest (object demo_object);
     Object_wait_until_exists dest] ∧
  Obs (Object_wait_until_exists dest) (inr ()) ∈ trace_of r ∧
  ∃ b : bytes,
    result_of (exec serve (get demo_object) demo_world) = Returned b ∧
    result_of (exec serve (get (init dest)) (state_of r)) =
    match fault (state_of r) with
    | Some code => Raised (ClientError code)
    | None => Returned b
    end.
Proof.
  apply (copy_then_get demo_world demo_object (Object "other" "copy.js")).
  vm_compute. reflexivity.
Defined.

(** ** put_acl and get_acl *)

Lemma grants_or_empty_Some (G : list Grant) : grants_or_empty (Some G) = G.
Proof. by destruct G. Qed.

Lemma visible_tick (w : World) (o : s3_object) :
  visible (tick w) o = visible w o.
Proof. reflexivity. Qed.

(** What [get_acl] returns on the in-memory service. *)
Lemma exec_get_acl (self : ObjectWrapper) (w : World) :
  result_of (exec serve (get_acl self) w) =
  match fault w with
  | Some code => Raised (ClientError code)
  | None =>
      match visible w (object self) with
      | Some ob =>
          match display_name_of (Owner_ (policy ob)) with
          | Returned _ =>
              Returned (mkAcl (object self) (Some (Grants (policy ob)))
                              (Owner_ (policy ob)))
          | Raised e => Raised e
          end
      | None => Raised (ClientError "NoSuchKey")
      end
  end.
Proof.
  unfold_facade. cbn. unfold serve. cbn. unfold serve_acl_load.
  destruct (fault w) as [code |]; cbn; [done |].
  destruct (visible w (object self)) as [ob |]; cbn; [| done].
  destruct (Owner_ (policy ob)) as [d |]; cbn; [| done].
  by destruct (DisplayName d); cbn.
Qed.

Lemma put_acl_returned (self : ObjectWrapper) (email : string) (w : World) :
  let r := exec serve (put_acl self email) w in
  result_of r = Returned () →
  ∃ ob,
    visible w (object self) = Some ob ∧
    store (state_of r)
    = <[address (object self) :=
          mkRemote (content ob)
            (mkPolicy (Grants (policy ob) ++ [email_read_grant email])
                      (Owner_ (policy ob)))
            (lag ob)]> (store w).
Proof.
  unfold_facade; cbn. crunch serve; try discriminate. intros _.
  apply serve_acl_load_returned in E as (ob & Hvis & Hf & -> & ->).
  apply serve_acl_put_returned in E0 as (ob' & Hvis' & _ & ->).
  apply serve_info in E1 as ->.
  rewrite visible_tick, Hvis in Hvis'. injection Hvis' as <-.
  exists ob. cbn. by destruct (Grants (policy ob)).
Qed.

(** For an object whose policy holds the grants [G] and an owner [O]
    that has a display name: after a [put_acl email] that returned,
    [get_acl] returns the ACL with owner [O] and the grants [G] followed
    by the one grant of [READ] to the customer with that e-mail address,
    unless the service fails the request. *)
Lemma put_acl_then_get_acl (w : World) (self : ObjectWrapper)
    (email : string) (ob : RemoteObject) (display_name : string) :
  store w !! address (object self) = Some ob →
  display_name_of (Owner_ (policy ob)) = Returned display_name →
  let r := exec serve (put_acl self email) w in
  result_of r = Returned () →
  result_of (exec serve (get_acl self) (state_of r)) =
  match fault (state_of r) with
  | Some code => Raised (ClientError code)
  | None =>
      Returned
        {| acl_object := object self;
           grants := Some (Grants (policy ob) ++
                           [{| grantee := AmazonCustomerByEmail email;
                               permission := READ |}]);
           owner := Owner_ (policy ob) |}
  end.
Proof.
  intros Hob Hname r Hret. subst r.
  destruct (put_acl_returned self email w Hret) as (ob' & Hvis & Hstore).
  apply visible_Some in Hvis as [Hob' Hlag].
  rewrite Hob in Hob'. injection Hob' as <-.
  rewrite exec_get_acl. destruct (fault (state_of _)); [done |].
  erewrite (proj2 (visible_Some _ _ _)).
  2: { rewrite Hstore, lookup_insert_eq. done. }
  cbn [policy Owner_ Grants]. by rewrite Hname.
Qed.

(** C1.  The claim fails on the code for an object whose owner has no
    display name.  After a [put_acl email] that returned, the policy of
    the object holds the grants [G] followed by the new grant, as the
    claim says; but [get_acl], with no failure of the service, raises
    [KeyError]: it evaluates [acl.owner['DisplayName']] for its log line
    before it returns the ACL. *)
Theorem get_acl_fails_without_display_name :
  ∀ (w : World) (self : ObjectWrapper) (email : string) (ob : RemoteObject)
    (d : Owner),
    store w !! address (object self) = Some ob →
    Owner_ (policy ob) = Some d →
    DisplayName d = None →
    let r := exec serve (put_acl self email) w in
    result_of r = Returned () →
    fault (state_of r) = None →
    (Grants ∘ policy) <$> store (state_of r) !! address (object self)
    = Some (Grants (policy ob) ++ [email_read_grant email]) ∧
    result_of (exec serve (get_acl self) (state_of r))
    = Raised (KeyError "DisplayName").
Proof.
  intros w self email ob d Hob Hown Hname r Hret Hf. subst r.
  destruct (put_acl_returned self email w Hret) as (ob' & Hvis & Hstore).
  apply visible_Some in Hvis as [Hob' Hlag].
  rewrite Hob in Hob'. injection Hob' as <-.
  split.
  - rewrite Hstore, lookup_insert_eq. done.
  - rewrite exec_get_acl, Hf.
    erewrite (proj2 (visible_Some _ _ _)).
    2: { rewrite Hstore, lookup_insert_eq. done. }
    cbn [policy Owner_ Grants]. rewrite Hown. cbn. by rewrite Hname.
Qed.

Lemma get_acl_fails_without_display_name_witness :
  let r := exec serve (put_acl demo_object "fcernaf@gmail.com")
             nameless_world in
  (Grants ∘ policy) <$> store (state_of r) !! address (object demo_object)
  = Some ([mkGrant (CanonicalUser nameless_owner) FULL_CONTROL]
          ++ [email_read_grant "fcernaf@gmail.com"]) ∧
  result_of (exec serve (get_acl demo_object) (state_of r))
  = Raised (KeyError "DisplayName").
Proof.
  apply (get_acl_fails_without_display_name nameless_world demo_object
           "fcernaf@gmail.com"
           (mkRemote ["a"%byte]
              (mkPolicy [mkGrant (CanonicalUser nameless_owner) FULL_CONTROL]
                        (Some nameless_owner)) 0)
           nameless_owner).
  - vm_compute. reflexivity.
  - reflexivity.
  - reflexivity.
  - vm_compute. reflexivity.
  - reflexivity.
Defined.

Lemma serve_acl_load_state (o : s3_object) (w w1 : World)
    (r : exn + ObjectAcl) :
  serve (ObjectAcl_load o) w = (r, w1) → w1 = tick w.
Proof.
  unfold serve, serve_acl_load.
  destruct (fault w); [| destruct (visible w o)]; by intros [= _ <-].
Qed.

Lemma serve_acl_put_raised (o : s3_object) (p : AccessControlPolicy)
    (w w1 : World) (e : exn) :
  serve (ObjectAcl_put o p) w = (inl e, w1) → w1 = tick w.
Proof.
  unfold serve, serve_acl_put.
  destruct (fault w); [| destruct (visible w o)]; by intros [= _ <-].
Qed.

Lemma serve_exception (fmt : string) (args : list string) (w w1 : World)
    (r : unit) :
  serve (logger_exception fmt args) w = (r, w1) →
  w1 = add_log (mkLog ERROR fmt args) w.
Proof. unfold serve. by intros [= _ <-]. Qed.

(** The store after [put_acl], on every path. *)
Lemma put_acl_store (self : ObjectWrapper) (email : string) (w : World) :
  let w' := state_of (exec serve (put_acl self email) w) in
  store w' = store w ∨
  ∃ ob,
    store w !! address (object self) = Some ob ∧
    store w'
    = <[address (object self) :=
          mkRemote (content ob)
            (mkPolicy (Grants (policy ob) ++ [email_read_grant email])
                      (Owner_ (policy ob)))
            (lag ob)]> (store w).
Proof.
  unfold_facade; cbn. crunch serve.
  all: repeat match goal with
         | E : serve (logger_info _ _) _ = _ |- _ => apply serve_info in E as ->
         | E : serve (logger_exception _ _) _ = _ |- _ =>
             apply serve_exception in E as ->
         | E : serve (ObjectAcl_put _ _) _ = (inl _, _) |- _ =>
             apply serve_acl_put_raised in E as ->
         | E : serve (ObjectAcl_load _) _ = (inl _, _) |- _ =>
             apply serve_acl_load_state in E as ->
         end; cbn.
  all: try (left; done).
  all: try (left; apply serve_acl_load_state in E as ->; done).
  right.
  apply serve_acl_load_returned in E as (ob & Hvis & Hf & -> & ->).
  apply serve_acl_put_returned in E0 as (ob' & Hvis' & _ & ->).
  rewrite visible_tick, Hvis in Hvis'. injection Hvis' as <-.
  apply visible_Some in Hvis as [Hob _].
  exists ob. cbn. split; [done |]. by destruct (Grants (policy ob)).
Qed.

(** On the in-memory service [put_acl] changes nothing but the grant list
    of its object: the bytes, the owner and every other object stay. *)
Lemma put_acl_frame (self : ObjectWrapper) (email : string) (w : World)
    (a : string * string) :
  let w' := state_of (exec serve (put_acl self email) w) in
  content <$> store w' !! a = content <$> store w !! a ∧
  (Owner_ ∘ policy) <$> store w' !! a = (Owner_ ∘ policy) <$> store w !! a ∧
  (a ≠ address (object self) → store w' !! a = store w !! a).
Proof.
  intros w'. destruct (put_acl_store self email w) as [Hs | (ob & Hob & Hs)];
    fold w' in Hs; rewrite Hs; [done |].
  destruct (decide (a = address (object self))) as [-> | Hne].
  - rewrite lookup_insert_eq, Hob. done.
  - rewrite lookup_insert_ne by done. done.
Qed.

(** ** list on the in-memory service *)

Lemma prefix_empty (s : string) : String.prefix EmptyString s = true.
Proof. by destruct s. Qed.

Lemma elem_of_bucket_objects (w : World) (b : string) (s : ObjectSummary) :
  s ∈ bucket_objects w b ↔
  summary_bucket_name s = b ∧
  is_Some (visible w (Object (summary_bucket_name s) (summary_key s))).
Proof.
  unfold bucket_objects. rewrite list_elem_of_fmap. split.
  - intros ([[bk k] ob] & -> & Hin).
    apply list_elem_of_filter in Hin as [[Hb Hlag] Hin].
    apply elem_of_map_to_list in Hin. cbn in *. split; [done |].
    exists ob. apply visible_Some. done.
  - intros [Hb [ob Hvis]]. apply visible_Some in Hvis as [Hob Hlag].
    exists (summary_bucket_name s, summary_key s, ob). split.
    + by destruct s.
    + apply list_elem_of_filter. split; [done |].
      by apply elem_of_map_to_list.
Qed.

Lemma NoDup_bucket_objects (w : World) (b : string) :
  NoDup (bucket_objects w b).
Proof.
  unfold bucket_objects. apply NoDup_fmap_2_strong.
  - intros [[b1 k1] o1] [[b2 k2] o2] H1 H2 [= -> ->].
    apply list_elem_of_filter in H1 as [_ H1].
    apply list_elem_of_filter in H2 as [_ H2].
    apply elem_of_map_to_list in H1, H2. congruence.
  - apply NoDup_filter, NoDup_map_to_list.
Qed.

(** What [list] returns on the in-memory service. *)
Lemma exec_list (bucket : Bucket) (prefix : option string) (w : World) :
  result_of (exec serve (list_ bucket prefix) w) =
  match fault w with
  | Some code => Raised (ClientError code)
  | None =>
      Returned
        (match prefix with
         | Some p => filter (fun s => starts_with p s = true)
                       (bucket_objects w (name bucket))
         | None => bucket_objects w (name bucket)
         end)
  end.
Proof.
  destruct prefix as [[| a p] |]; unfold_facade; cbn; unfold serve; cbn;
    unfold serve_all, serve_filter; destruct (fault w) as [code |]; cbn;
    try done.
  f_equal. symmetry. induction (bucket_objects w (name bucket)) as [| x l IH];
    [done |].
  rewrite filter_cons_True by apply prefix_empty. by f_equal.
Qed.

(** C5.  Unless the service fails the request, [list] returns, without
    repetition, exactly the objects of the bucket whose key starts with
    the prefix, and all the objects of the bucket when no prefix is given;
    for the bucket with the keys js/a.js, img/b.png and js/c.js and the
    prefix js/ these are js/a.js and js/c.js. *)
Theorem list_returns_prefixed_objects :
  ∀ (w : World) (bucket : Bucket) (prefix : option string),
    fault w = None →
    (∃ l : list ObjectSummary,
       result_of (exec serve (list_ bucket prefix) w) = Returned l ∧
       NoDup l ∧
       (prefix = None → l = bucket_objects w (name bucket)) ∧
       ∀ s : ObjectSummary,
         s ∈ l ↔
         (summary_bucket_name s = name bucket ∧
          is_Some (visible w (Object (summary_bucket_name s) (summary_key s))))
         ∧ match prefix with
           | Some p => String.prefix p (summary_key s) = true
           | None => True
           end) ∧
    (∃ l : list ObjectSummary,
       result_of (exec serve (list_ (mkBucket demo_bucket) (Some "js/"))
                    demo_world) = Returned l ∧
       summary_key <$> l ≡ₚ ["js/a.js"; "js/c.js"]).
Proof.
  intros w bucket prefix Hf. split.
  - rewrite exec_list, Hf. eexists. split; [done |].
    destruct prefix as [p |].
    + split; [apply NoDup_filter, NoDup_bucket_objects |].
      split; [done |]. intros s.
      rewrite list_elem_of_filter, elem_of_bucket_objects.
      unfold starts_with. tauto.
    + split; [apply NoDup_bucket_objects |]. split; [done |]. intros s.
      rewrite elem_of_bucket_objects. tauto.
  - eexists. split; [vm_compute; reflexivity |].
    cbn. apply Permutation_swap.
Qed.

Lemma list_returns_prefixed_objects_witness :
  (∃ l : list ObjectSummary,
     result_of (exec serve (list_ (mkBucket demo_bucket) (Some "js/"))
                  demo_world) = Returned l ∧
     NoDup l ∧
     (Some "js/" = None → l = bucket_objects demo_world demo_bucket) ∧
     ∀ s : ObjectSummary,
       s ∈ l ↔
       (summary_bucket_name s = demo_bucket ∧
        is_Some (visible demo_world
                   (Object (summary_bucket_name s) (summary_key s))))
       ∧ String.prefix "js/" (summary_key s) = true) ∧
  (∃ l : list ObjectSummary,
     result_of (exec serve (list_ (mkBucket demo_bucket) (Some "js/"))
                  demo_world) = Returned l ∧
     summary_key <$> l ≡ₚ ["js/a.js"; "js/c.js"]).
Proof.
  apply (list_returns_prefixed_objects demo_world (mkBucket demo_bucket)
           (Some "js/")).
  reflexivity.
Defined.

(** * Further properties of the facade *)

(** X1.  [put] given bytes makes no call to the file system, whatever the
    storage client answers: nothing is opened and nothing is closed. *)
Theorem put_bytes_no_file_call :
  ∀ (W : Type) (h : handler W) (self : ObjectWrapper) (b : bytes) (w : W),
    file_calls (trace_of (exec h (put self (DataBytes b)) w)) = [].
Proof.
  intros W h self b w. unfold_facade. cbn. crunch h; done.
Qed.

(** X2.  Whatever exception [open] raises for the file name given to
    [put], [put] raises that exception, makes no call to the storage
    client and closes nothing; it logs one line, naming the file, exactly
    when the exception is an [IOError]. *)
Theorem put_open_failure :
  ∀ (W : Type) (h : handler W) (self : ObjectWrapper) (path : string)
    (w w1 : W) (e : exn),
    h (open_rb path) w = (inl e, w1) →
    let r := exec h (put self (DataStr path)) w in
    result_of r = Raised e ∧
    remote_calls (trace_of r) = [] ∧
    closed_files (trace_of r) = [] ∧
    info_lines (trace_of r) = [] ∧
    exception_lines (trace_of r)
    = if is_IOError e
      then [("Expected file name or binary data, got '%s'.", [path])]
      else [].
Proof.
  intros W h self path w w1 e Ho r. subst r.
  unfold_facade. cbn. rewrite Ho. cbn.
  destruct (is_IOError e); cbn; crunch h; done.
Qed.

Lemma put_open_failure_witness :
  let r := exec serve (put new_object (DataStr "build/js/missing.js"))
             demo_world in
  result_of r = Raised (IOError "No such file or directory: build/js/missing.js") ∧
  remote_calls (trace_of r) = [] ∧
  closed_files (trace_of r) = [] ∧
  info_lines (trace_of r) = [] ∧
  exception_lines (trace_of r)
  = if is_IOError (IOError "No such file or directory: build/js/missing.js")
    then [("Expected file name or binary data, got '%s'.",
           ["build/js/missing.js"])]
    else [].
Proof.
  apply (put_open_failure World serve new_object "build/js/missing.js"
           demo_world demo_world).
  reflexivity.
Defined.

(** X3.  Each operation logs at most one line.  When it returns, that is
    one [info] line and no [exception] line; when it raises, there is no
    [info] line, and an [exception] line only if the exception raised is
    a [ClientError] or an [IOError]. *)
Theorem one_log_line_per_operation :
  ∀ (W : Type) (h : handler W) (self : ObjectWrapper) (op : operation)
    (w : W),
    let r := exec h (perform self op) w in
    match result_of r with
    | Returned _ =>
        length (info_lines (trace_of r)) = 1 ∧
        exception_lines (trace_of r) = []
    | Raised e =>
        info_lines (trace_of r) = [] ∧
        length (exception_lines (trace_of r)) ≤ 1 ∧
        (exception_lines (trace_of r) ≠ [] →
         is_ClientError e = true ∨ is_IOError e = true)
    end.
Proof.
  intros W h self op w.
  destruct op as [[b | path] | | bucket [[| a p] |] | dest | email |];
    unfold_facade; cbn; crunch h; cbn;
    repeat split; try done; try lia; auto.
Qed.

(** X4.  The reading operations make exactly one request on every path,
    failure included: [get] the read of its object, [get_acl] the read of
    its ACL, and [list] the unfiltered listing when the prefix is absent
    or empty and the listing filtered by exactly that prefix otherwise.
    The other operations make at most two requests. *)
Theorem request_budget :
  ∀ (W : Type) (h : handler W) (self : ObjectWrapper) (op : operation)
    (w : W),
    let made := remote_calls (trace_of (exec h (perform self op) w)) in
    match read_request self op with
    | Some c => made = [c]
    | None => length made ≤ 2
    end.
Proof.
  intros W h self op w.
  destruct op as [[b | path] | | bucket [[| a p] |] | dest | email |];
    unfold_facade; cbn; crunch h; cbn; try done;
    repeat case_decide; try done; cbn; lia.
Qed.

Lemma perform_calls_about (W : Type) (h : handler W) (self : ObjectWrapper)
    (op : operation) (w : W) (c : call) :
  c ∈ map call_of (trace_of (exec h (perform self op) w)) →
  (∀ o, o ∈ addressed c → o ∈ objects_of self op) ∧
  (∀ b, b ∈ listed c → b ∈ buckets_of op).
Proof.
  destruct op as [[b | path] | | bucket [[| a p] |] | dest | email |];
    unfold_facade; cbn; crunch h; cbn; intros Hc;
    repeat (apply elem_of_cons in Hc as [-> | Hc]);
    try (by apply elem_of_nil in Hc); cbn;
    (split; intros x Hx;
     repeat (apply elem_of_cons in Hx as [-> | Hx]);
     try (by apply elem_of_nil in Hx);
     apply list_elem_of_In; cbn; tauto).
Qed.

(** The one file an operation opens: the file named to [put]. *)
Lemma perform_opened_paths (W : Type) (h : handler W) (self : ObjectWrapper)
    (op : operation) (w : W) :
  opened_paths (map call_of (trace_of (exec h (perform self op) w)))
  = match op with
    | op_put (DataStr path) => [path]
    | _ => []
    end.
Proof.
  destruct op as [[b | path] | | bucket [[| a p] |] | dest | email |];
    unfold_facade; cbn; crunch h; done.
Qed.

(** X5.  An operation names no remote object but its own (for [copy],
    its own and the destination) and lists no bucket but the one given to
    [list], on every path. *)
Theorem operation_stays_on_its_objects :
  ∀ (W : Type) (h : handler W) (self : ObjectWrapper) (op : operation)
    (w : W) (c : call),
    c ∈ map call_of (trace_of (exec h (perform self op) w)) →
    (∀ o, o ∈ addressed c → o ∈ objects_of self op) ∧
    (∀ b, b ∈ listed c → b ∈ buckets_of op).
Proof. intros W h self op w c. apply perform_calls_about. Qed.

Lemma operation_stays_on_its_objects_witness :
  (∀ o, o ∈ addressed (Object_copy_from (Object "other" "copy.js")
                         (object demo_object)) →
        o ∈ objects_of demo_object (op_copy (Object "other" "copy.js"))) ∧
  (∀ b, b ∈ listed (Object_copy_from (Object "other" "copy.js")
                      (object demo_object)) →
        b ∈ buckets_of (op_copy (Object "other" "copy.js"))).
Proof.
  apply (operation_stays_on_its_objects World serve demo_object
           (op_copy (Object "other" "copy.js")) demo_world).
  vm_compute. left.
Defined.

(** * The demo *)

Lemma run_sbind {W A B : Type} (h : driver_handler W) (p : script A)
    (f : A → script B) (w : W) :
  run h (sbind p f) w =
  let r1 := run h p w in
  let r2 := run h (f (driver_result r1)) (driver_state r1) in
  (driver_result r2, driver_state r2, driver_trace r1 ++ driver_trace r2).
Proof.
  revert w. induction p as [a | c k IH]; intros w; cbn.
  - by destruct (run h (f a) w) as [[? ?] ?].
  - destruct (h c w) as [r w1]. rewrite IH. cbn.
    destruct (run h (k r) w1) as [[a w2] t1]. cbn.
    by destruct (run h (f a) w2) as [[? ?] ?].
Qed.

(** Sequencing: the rest runs when the first part returned. *)
Lemma run_s_bind {W A B : Type} (h : driver_handler W) (m : S_ A)
    (f : A → S_ B) (w : W) :
  run h (s_bind m f) w =
  let r1 := run h m w in
  match driver_result r1 with
  | Returned a =>
      let r2 := run h (f a) (driver_state r1) in
      (driver_result r2, driver_state r2, driver_trace r1 ++ driver_trace r2)
  | Raised e => (Raised e, driver_state r1, driver_trace r1)
  end.
Proof.
  unfold s_bind. rewrite run_sbind. cbn.
  destruct (run h m w) as [[[a | e] w1] t1]; cbn; [done |].
  by rewrite app_nil_r.
Qed.

Lemma run_s_try_except {W R : Type} (h : driver_handler W) (body : S_ R)
    (cls : exn → bool) (handler : exn → S_ R) (w : W) :
  run h (s_try_except body cls handler) w =
  let r1 := run h body w in
  match driver_result r1 with
  | Returned a => r1
  | Raised e =>
      if cls e then
        let r2 := run h (handler e) (driver_state r1) in
        (driver_result r2, driver_state r2,
         driver_trace r1 ++ driver_trace r2)
      else r1
  end.
Proof.
  unfold s_try_except. rewrite run_sbind. cbn.
  destruct (run h body w) as [[[a | e] w1] t1]; cbn.
  - by rewrite app_nil_r.
  - destruct (cls e); cbn; [done |]. by rewrite app_nil_r.
Qed.

(** A method of the facade runs in the demo as it runs alone. *)
Lemma run_lift {W R : Type} (h : driver_handler W) (p : prog R) (w : W) :
  run h (lift p) w =
  let r := exec (facade_handler h) p w in
  (result_of r, state_of r, map lift_obs (trace_of r)).
Proof.
  revert w. induction p as [a | c k IH]; intros w; cbn; [done |].
  change (facade_handler h c w) with (h (facade c) w).
  destruct (h (facade c) w) as [r w1].
  rewrite IH. cbn.
  by destruct (exec (facade_handler h) (k r) w1) as [[x w2] tr].
Qed.

Lemma run_print {W : Type} (h : driver_handler W) (line : string) (w : W) :
  run h (print_ line) w
  = (Returned (h (print line) w).1, (h (print line) w).2,
     [DObs (print line) (h (print line) w).1]).
Proof. cbn. by destruct (h (print line) w). Qed.

Lemma facade_calls_lift (tr : list obs) :
  facade_calls (map lift_obs tr) = map call_of tr.
Proof. induction tr as [| [c r] tr IH]; cbn; [done |]. by f_equal. Qed.

Lemma facade_calls_app (t1 t2 : list driver_obs) :
  facade_calls (t1 ++ t2) = facade_calls t1 ++ facade_calls t2.
Proof. apply omap_app. Qed.

Lemma printed_app (t1 t2 : list driver_obs) :
  printed (t1 ++ t2) = printed t1 ++ printed t2.
Proof. apply omap_app. Qed.

Lemma printed_lift (tr : list obs) : printed (map lift_obs tr) = [].
Proof. induction tr as [| [c r] tr IH]; cbn; done. Qed.

(** ** What the demo touches *)

Section Scope.

Context {W : Type} (h : driver_handler W) (P : call → Prop).

Lemma scope_s_bind {A B : Type} (m : S_ A) (f : A → S_ B) (w : W) :
  Forall P (facade_calls (driver_trace (run h m w))) →
  (∀ a w', Forall P (facade_calls (driver_trace (run h (f a) w')))) →
  Forall P (facade_calls (driver_trace (run h (s_bind m f) w))).
Proof.
  intros Hm Hf. rewrite run_s_bind. cbn.
  destruct (driver_result (run h m w)) as [a | e]; cbn; [| done].
  rewrite facade_calls_app. apply Forall_app. split; [done | apply Hf].
Qed.

Lemma scope_try_except {R : Type} (body : S_ R) (cls : exn → bool)
    (handler : exn → S_ R) (w : W) :
  Forall P (facade_calls (driver_trace (run h body w))) →
  (∀ e w', Forall P (facade_calls (driver_trace (run h (handler e) w')))) →
  Forall P (facade_calls
              (driver_trace (run h (s_try_except body cls handler) w))).
Proof.
  intros Hb Hh. rewrite run_s_try_except. cbn.
  destruct (driver_result (run h body w)) as [a | e]; cbn; [done |].
  destruct (cls e); cbn; [| done].
  rewrite facade_calls_app. apply Forall_app. split; [done | apply Hh].
Qed.

Lemma scope_lift {R : Type} (p : prog R) (w : W) :
  Forall P (map call_of (trace_of (exec (facade_handler h) p w))) →
  Forall P (facade_calls (driver_trace (run h (lift p) w))).
Proof. intros Hp. rewrite run_lift. cbn. by rewrite facade_calls_lift. Qed.

Lemma scope_print (line : string) (w : W) :
  Forall P (facade_calls (driver_trace (run h (print_ line) w))).
Proof. rewrite run_print. cbn. constructor. Qed.

Lemma scope_for_each (names : list string) (body : string → S_ unit)
    (w : W) :
  (∀ x w', x ∈ names →
           Forall P (facade_calls (driver_trace (run h (body x) w')))) →
  Forall P (facade_calls (driver_trace (run h (for_each names body) w))).
Proof.
  revert w. induction names as [| x names IH]; intros w Hbody; cbn.
  - constructor.
  - apply scope_s_bind.
    + apply Hbody. left.
    + intros _ w'. apply IH. intros y w'' Hy. apply Hbody. by right.
Qed.

Lemma scope_create_bucket (bucket : Bucket) (w : W) :
  Forall P (facade_calls (driver_trace (run h (create_bucket bucket) w))).
Proof.
  unfold create_bucket, region_name, s_bind, print_. cbn.
  destruct (h client_region_name w) as [region w1]. cbn.
  destruct (h (Bucket_create bucket region) w1) as [[[err msg] | []] w2]; cbn.
  - destruct (is_ClientError err); cbn; [| constructor].
    destruct (h _ w2) as [[] w3]. cbn. constructor.
  - constructor.
Qed.

End Scope.

Lemma opened_paths_elem (c : call) (cs : list call) (path : string) :
  c ∈ cs → path ∈ opened_paths [c] → path ∈ opened_paths cs.
Proof.
  intros Hc Hp. unfold opened_paths in *.
  apply list_elem_of_omap in Hp as (c' & Hc' & Hp).
  apply list_elem_of_singleton in Hc' as ->.
  apply list_elem_of_omap. by exists c.
Qed.

(** An operation on an object of the demo, with a file of the demo if it
    is a [put], stays within what the demo may touch. *)
Lemma perform_in_scope (W : Type) (h : handler W) (k : string)
    (op : operation) (w : W) :
  k ∈ list_file_names →
  op = op_put (DataStr (directory_file_names +:+ k)) ∨
  op = op_put_acl grantee_email ∨ op = op_get_acl →
  Forall in_scope
    (map call_of
       (trace_of (exec h (perform (init (Object "evaluationroom.com" k)) op)
                    w))).
Proof.
  intros Hk Hop. apply Forall_forall. intros c Hc.
  destruct (perform_calls_about W h _ op w c Hc) as [Hobj Hbk].
  pose proof (perform_opened_paths W h
                (init (Object "evaluationroom.com" k)) op w) as Hpaths.
  split; [| split].
  - intros o Ho. apply Hobj in Ho.
    assert (o = Object "evaluationroom.com" k) as ->.
    { destruct Hop as [-> | [-> | ->]]; cbn in Ho;
        by apply list_elem_of_singleton in Ho. }
    done.
  - destruct (listed c) as [| b l] eqn:Hl; [done |].
    specialize (Hbk b (list_elem_of_here _ _)).
    destruct Hop as [-> | [-> | ->]]; by apply elem_of_nil in Hbk.
  - intros path Hp. apply (opened_paths_elem c _ path Hc) in Hp.
    rewrite Hpaths in Hp.
    destruct Hop as [-> | [-> | ->]]; cbn in Hp.
    + apply list_elem_of_singleton in Hp as ->. by exists k.
    + by apply elem_of_nil in Hp.
    + by apply elem_of_nil in Hp.
Qed.

(** X8.  Whatever the file system and the storage client answer, the demo
    names no remote object outside the bucket evaluationroom.com and the
    keys js/index_exam.js, js/index_public.js and js/index.js, lists no
    bucket, and opens no file but the one of the build directory with
    the name of such a key. *)
Theorem demo_stays_in_scope :
  ∀ (json_dumps : option (list Grant) → string) (W : Type)
    (h : driver_handler W) (w : W) (c : call),
    c ∈ facade_calls (driver_trace (run h (upload_react_files json_dumps) w)) →
    in_scope c.
Proof.
  intros json_dumps W h w. apply Forall_forall.
  unfold upload_react_files.
  repeat (apply scope_s_bind; [apply scope_print | intros _ ?]).
  apply scope_s_bind.
  { unfold basicConfig. cbn. destruct (h _ _) as [[] ?]. constructor. }
  intros _ ?.
  apply scope_s_bind; [apply scope_create_bucket |]. intros _ ?.
  apply scope_s_bind; [| intros; apply scope_print].
  apply scope_for_each. intros k wk Hk. unfold upload_one.
  apply scope_s_bind.
  { apply scope_lift.
    apply (perform_in_scope W (facade_handler h) k
             (op_put (DataStr (directory_file_names +:+ k))) wk Hk).
    by left. }
  intros _ ?. apply scope_s_bind; [apply scope_print |]. intros _ ?.
  apply scope_try_except.
  - apply scope_s_bind.
    { apply scope_lift.
      apply (perform_in_scope W (facade_handler h) k
               (op_put_acl grantee_email) _ Hk). right. by left. }
    intros _ ?. apply scope_s_bind; [| intros; apply scope_print].
    apply scope_lift.
    apply (perform_in_scope W (facade_handler h) k op_get_acl _ Hk).
    right. by right.
  - intros e ?. destruct (String.eqb (Code e) unresolvable).
    + repeat (apply scope_s_bind; [apply scope_print | intros _ ?]).
      apply scope_print.
    + constructor.
Qed.

(** ** Failures in the demo *)

Lemma each_raise_split (P : call → exn → list obs → Prop) (tr : list obs) :
  each_raise P tr →
  ∀ pre o post e,
    tr = pre ++ o :: post → raised_by o = Some e → P (call_of o) e post.
Proof.
  intros Htr pre. revert tr Htr.
  induction pre as [| x pre IH]; intros tr Htr o post e -> He.
  - cbn in Htr. rewrite He in Htr. tauto.
  - cbn in Htr. destruct Htr as [_ Htr]. by eapply IH.
Qed.

(** An operation that a call fails raises the exception of that call; no
    request and no [open] follows; the calls that can fail in [put_acl]
    and [get_acl], and only they, are the calls on the ACL. *)
Lemma perform_raises (W : Type) (h : handler W) (self : ObjectWrapper)
    (op : operation) (w : W) :
  let r := exec h (perform self op) w in
  each_raise
    (fun c e post =>
       is_acl_call c = is_acl_op op ∧
       result_of r = Raised e ∧
       remote_calls post = [] ∧
       opened_paths (map call_of post) = [])
    (trace_of r).
Proof.
  destruct op as [[b | path] | | bucket [[| a p] |] | dest | email |];
    unfold_facade; cbn; crunch h; cbn; repeat split; done.
Qed.

Lemma each_facade_failure_split (P : call → exn → list driver_obs → Prop)
    (tr : list driver_obs) :
  each_facade_failure P tr →
  ∀ pre o post c e,
    tr = pre ++ o :: post →
    facade_call_of o = Some c →
    driver_raised_by o = Some e →
    P c e post.
Proof.
  intros Htr pre. revert tr Htr.
  induction pre as [| x pre IH]; intros tr Htr o post c e -> Hc He.
  - cbn in Htr. rewrite Hc, He in Htr. tauto.
  - cbn in Htr. destruct Htr as [_ Htr]. by eapply IH.
Qed.

Lemma each_facade_failure_app (P Q : call → exn → list driver_obs → Prop)
    (t1 t2 : list driver_obs) :
  each_facade_failure P t1 →
  (∀ c e post, P c e post → Q c e (post ++ t2)) →
  each_facade_failure Q t2 →
  each_facade_failure Q (t1 ++ t2).
Proof.
  intros H1 HPQ H2. induction t1 as [| o t1 IH]; cbn; [done |].
  destruct H1 as [Ho H1]. split; [| by apply IH].
  destruct (facade_call_of o), (driver_raised_by o); try done. by apply HPQ.
Qed.

Lemma each_facade_failure_impl (P Q : call → exn → list driver_obs → Prop)
    (tr : list driver_obs) :
  each_facade_failure P tr →
  (∀ c e post, P c e post → Q c e post) →
  each_facade_failure Q tr.
Proof.
  intros H HPQ. rewrite <- (app_nil_r tr).
  apply (each_facade_failure_app P Q tr []); [done | | done].
  intros c e post HP. rewrite app_nil_r. by apply HPQ.
Qed.

Lemma requests_lift (tr : list obs) :
  requests (map lift_obs tr) = map facade (remote_calls tr).
Proof.
  unfold requests, remote_calls.
  induction tr as [| [c r] tr IH]; [done |]. cbn [map lift_obs projT1 call_of].
  destruct (is_remote c) eqn:Hc.
  - rewrite !filter_cons_True by done. cbn. by f_equal.
  - rewrite !filter_cons_False by (cbn; congruence). done.
Qed.

Lemma quiet_nil : quiet [].
Proof. done. Qed.

Lemma each_facade_failure_lift (P : call → exn → list obs → Prop)
    (Q : call → exn → list driver_obs → Prop) (tr : list obs) :
  each_raise P tr →
  (∀ c e post, P c e post → Q c e (map lift_obs post)) →
  each_facade_failure Q (map lift_obs tr).
Proof.
  intros Htr HPQ. induction tr as [| [c r] tr IH]; cbn; [done |].
  destruct Htr as [Ho Htr]. split; [| by apply IH].
  change (match raised_by (existT c r) with
          | Some e => Q c e (map lift_obs tr)
          | None => True
          end).
  destruct (raised_by (existT c r)); [| done]. by apply HPQ.
Qed.

Section Failures.

Context {W : Type} (h : driver_handler W).

(** A method of the facade, in the demo. *)
Lemma lift_fatal (self : ObjectWrapper) (op : operation) (w : W) :
  let r := run h (lift (perform self op)) w in
  each_facade_failure
    (fatal_at (fun c => bool_decide (is_acl_call c = is_acl_op op))
       (failure_of (driver_result r)))
    (driver_trace r).
Proof.
  rewrite run_lift. cbn.
  apply (each_facade_failure_lift _ _ _
           (perform_raises W (facade_handler h) self op w)).
  intros c e post (Hc & Hres & Hrem & Hop).
  split; [by apply bool_decide_eq_true |]. split; [by rewrite Hres |].
  split; [by rewrite requests_lift, Hrem |].
  split; [by rewrite facade_calls_lift | apply printed_lift].
Qed.

Lemma print_no_failure (P : call → exn → list driver_obs → Prop)
    (line : string) (w : W) :
  each_facade_failure P (driver_trace (run h (print_ line) w)).
Proof. rewrite run_print. cbn. done. Qed.

(** Sequencing parts in which every failure is fatal. *)
Lemma fatal_s_bind {A B : Type} (C : call → bool) (m : S_ A) (f : A → S_ B)
    (w : W) :
  each_facade_failure
    (fatal_at C (failure_of (driver_result (run h m w))))
    (driver_trace (run h m w)) →
  (∀ a w', each_facade_failure
             (fatal_at C (failure_of (driver_result (run h (f a) w'))))
             (driver_trace (run h (f a) w'))) →
  each_facade_failure
    (fatal_at C (failure_of (driver_result (run h (s_bind m f) w))))
    (driver_trace (run h (s_bind m f) w)).
Proof.
  intros Hm Hf. rewrite run_s_bind. cbn.
  destruct (driver_result (run h m w)) as [a | e1] eqn:Hres; cbn in *;
    [| done].
  eapply each_facade_failure_app; [exact Hm | | apply Hf].
  by intros c e post (_ & ? & _).
Qed.

(** Sequencing parts in which a failure is explained or fatal. *)
Lemma explained_s_bind {A B : Type} (m : S_ A) (f : A → S_ B) (w : W) :
  each_facade_failure
    (explained_or_fatal (failure_of (driver_result (run h m w))))
    (driver_trace (run h m w)) →
  (∀ a w', each_facade_failure
             (explained_or_fatal
                (failure_of (driver_result (run h (f a) w'))))
             (driver_trace (run h (f a) w'))) →
  each_facade_failure
    (explained_or_fatal (failure_of (driver_result (run h (s_bind m f) w))))
    (driver_trace (run h (s_bind m f) w)).
Proof.
  intros Hm Hf. rewrite run_s_bind. cbn.
  destruct (driver_result (run h m w)) as [a | e1] eqn:Hres; cbn in *;
    [| done].
  eapply each_facade_failure_app; [exact Hm | | apply Hf].
  intros c e post. unfold explained_or_fatal.
  destruct (swallowed c e).
  - rewrite printed_app. intros Hin. apply elem_of_app. by left.
  - by intros [? _].
Qed.

Lemma fatal_explained (C : call → bool) (res : option exn)
    (tr : list driver_obs) :
  (∀ c, C c = true → is_acl_call c = false) →
  each_facade_failure (fatal_at C res) tr →
  each_facade_failure (explained_or_fatal res) tr.
Proof.
  intros HC Htr. eapply each_facade_failure_impl; [exact Htr |].
  intros c e post (Hc & Hres & Hq). unfold explained_or_fatal, swallowed.
  by rewrite (HC c Hc).
Qed.

Lemma three_prints (a b c : string) (w : W) :
  ∃ w3,
    run h (s_bind (print_ a) (fun _ =>
           s_bind (print_ b) (fun _ => print_ c))) w
    = (Returned (), w3,
       [DObs (print a) (); DObs (print b) (); DObs (print c) ()]).
Proof.
  unfold s_bind, print_. cbn.
  destruct (h (print a) w) as [[] w1]. cbn.
  destruct (h (print b) w1) as [[] w2]. cbn.
  destruct (h (print c) w2) as [[] w3]. cbn. by exists w3.
Qed.

(** The [try] of the loop around a body whose failures are failures of
    calls on the ACL. *)
Lemma explained_try (stars : string) (body : S_ unit) (w : W) :
  each_facade_failure
    (fatal_at is_acl_call (failure_of (driver_result (run h body w))))
    (driver_trace (run h body w)) →
  let r :=
    run h (s_try_except body is_ClientError
             (fun error =>
                if String.eqb (Code error) unresolvable then
                  s_bind (print_ stars) (fun _ =>
                  s_bind (print_ unresolvable_message) (fun _ =>
                  print_ stars))
                else s_raise error)) w in
  each_facade_failure (explained_or_fatal (failure_of (driver_result r)))
    (driver_trace r).
Proof.
  intros Hb. rewrite run_s_try_except. cbn zeta.
  destruct (driver_result (run h body w)) as [a | e0] eqn:Hres; cbn in Hb.
  { rewrite Hres. cbn. eapply each_facade_failure_impl; [exact Hb |].
    by intros c e post (_ & ? & _). }
  destruct (is_ClientError e0) eqn:Hcls.
  2: { rewrite Hres. cbn. eapply each_facade_failure_impl; [exact Hb |].
       intros c e post (Hc & [= <-] & Hq).
       unfold explained_or_fatal, swallowed. by rewrite Hcls, andb_false_r. }
  destruct (String.eqb (Code e0) unresolvable) eqn:Hcode.
  - destruct (three_prints stars unresolvable_message stars
                (driver_state (run h body w))) as [w3 ->].
    cbn [driver_result driver_state driver_trace fst snd failure_of].
    eapply each_facade_failure_app; [exact Hb | | done].
    intros c e post (Hc & [= <-] & Hq).
    unfold explained_or_fatal, swallowed. rewrite Hc, Hcls, Hcode.
    cbn [andb]. rewrite printed_app. apply elem_of_app. right.
    cbn [printed omap list_omap DObs projT1]. right. left.
  - cbn [s_raise run driver_result driver_state driver_trace fst snd
         failure_of]. rewrite app_nil_r.
    eapply each_facade_failure_impl; [exact Hb |].
    intros c e post (Hc & [= <-] & Hq).
    unfold explained_or_fatal, swallowed.
    by rewrite Hc, Hcls, Hcode.
Qed.

Lemma explained_for_each (names : list string) (body : string → S_ unit)
    (w : W) :
  (∀ x w', each_facade_failure
             (explained_or_fatal
                (failure_of (driver_result (run h (body x) w'))))
             (driver_trace (run h (body x) w'))) →
  each_facade_failure
    (explained_or_fatal
       (failure_of (driver_result (run h (for_each names body) w))))
    (driver_trace (run h (for_each names body) w)).
Proof.
  intros Hbody. revert w. induction names as [| x names IH]; intros w; cbn.
  - done.
  - apply explained_s_bind; [apply Hbody | intros _ w'; apply IH].
Qed.

Lemma create_bucket_no_failure (P : call → exn → list driver_obs → Prop)
    (bucket : Bucket) (w : W) :
  each_facade_failure P (driver_trace (run h (create_bucket bucket) w)).
Proof.
  unfold create_bucket, region_name, s_bind, print_. cbn.
  destruct (h client_region_name w) as [region w1]. cbn.
  destruct (h (Bucket_create bucket region) w1) as [[[err msg] | []] w2]; cbn.
  - destruct (is_ClientError err); cbn; [| done].
    destruct (h _ w2) as [[] w3]. cbn. done.
  - done.
Qed.

Lemma upload_one_failures (json_dumps : option (list Grant) → string)
    (bucket : Bucket) (file_name : string) (w : W) :
  let r := run h (upload_one json_dumps bucket file_name) w in
  each_facade_failure (explained_or_fatal (failure_of (driver_result r)))
    (driver_trace r).
Proof.
  unfold upload_one. apply explained_s_bind.
  { eapply fatal_explained;
      [| apply (lift_fatal _ (op_put (DataStr _)))].
    intros c Hc. by apply bool_decide_eq_true in Hc. }
  intros _ w1. apply explained_s_bind; [apply print_no_failure |].
  intros _ w2. apply (explained_try (str_mul "*" 88)).
  apply fatal_s_bind.
  { eapply each_facade_failure_impl;
      [apply (lift_fatal _ (op_put_acl _)) |].
    intros c e post (Hc & ? & ?). by apply bool_decide_eq_true in Hc. }
  intros _ w3. apply fatal_s_bind.
  { eapply each_facade_failure_impl; [apply (lift_fatal _ op_get_acl) |].
    intros c e post (Hc & ? & ?). by apply bool_decide_eq_true in Hc. }
  intros acl w4. apply print_no_failure.
Qed.

Lemma demo_failures (json_dumps : option (list Grant) → string) (w : W) :
  let r := run h (upload_react_files json_dumps) w in
  each_facade_failure (explained_or_fatal (failure_of (driver_result r)))
    (driver_trace r).
Proof.
  unfold upload_react_files.
  repeat (apply explained_s_bind; [apply print_no_failure | intros _ ?]).
  apply explained_s_bind.
  { unfold basicConfig. cbn. by destruct (h _ _) as [[] ?]. }
  intros _ ?.
  apply explained_s_bind; [apply create_bucket_no_failure | intros _ ?].
  apply explained_s_bind; [| intros; apply print_no_failure].
  apply explained_for_each. intros x wx. apply upload_one_failures.
Qed.

End Failures.

(** X9.  In a run of the demo, a call of the facade that raises stops the
    demo, with two exceptions.  When the read or the write of the ACL
    raises a [ClientError] with the code UnresolvableGrantByEmailAddress,
    the demo prints its explanation afterwards.  In every other case the
    demo raises the very exception of the call and, after the call, asks
    nothing more of the storage client, opens no file and prints
    nothing: a file that cannot be opened or uploaded ends the run before
    the files after it are touched. *)
Theorem demo_failure_is_explained_or_fatal :
  ∀ (json_dumps : option (list Grant) → string) (W : Type)
    (h : driver_handler W) (w : W)
    (pre : list driver_obs) (o : driver_obs) (post : list driver_obs)
    (c : call) (e : exn),
    let r := run h (upload_react_files json_dumps) w in
    driver_trace r = pre ++ o :: post →
    facade_call_of o = Some c →
    driver_raised_by o = Some e →
    if swallowed c e
    then unresolvable_message ∈ printed post
    else driver_result r = Raised e ∧
         requests post = [] ∧
         opened_paths (facade_calls post) = [] ∧
         printed post = [].
Proof.
  intros json_dumps W h w pre o post c e r Htr Hc He.
  pose proof (each_facade_failure_split _ _ (demo_failures h json_dumps w)
                pre o post c e Htr Hc He) as H.
  unfold explained_or_fatal in H. destruct (swallowed c e); [done |].
  destruct H as [Hres Hq]. split; [| exact Hq].
  fold r in Hres. by destruct (driver_result r) as [[] | e']; inversion Hres.
Qed.

(** ** What a run of the demo that returns has done *)

Lemma driver_answered_app (t1 t2 : list driver_obs) :
  driver_answered (t1 ++ t2) = driver_answered t1 ++ driver_answered t2.
Proof. apply omap_app. Qed.

Lemma driver_answered_lift (tr : list obs) :
  driver_answered (map lift_obs tr) = answered tr.
Proof.
  induction tr as [| [c r] tr IH]; [done |].
  cbn [map]. unfold driver_answered, answered in *. cbn [omap list_omap].
  rewrite IH.
  change (driver_raised_by (lift_obs (existT c r)))
    with (raised_by (existT c r)).
  by destruct (raised_by (existT c r)).
Qed.

(** The uploads and the confirmations of an operation: none unless it is
    a [put], and for a [put] that returned the one of its object. *)
Lemma perform_uploads (W : Type) (h : handler W) (self : ObjectWrapper)
    (op : operation) (w : W) :
  let r := exec h (perform self op) w in
  match op with
  | op_put _ =>
      failure_of (result_of r) = None →
      uploaded (answered (trace_of r)) = [object self] ∧
      confirmed (answered (trace_of r)) = [object self]
  | op_copy _ => True
  | _ =>
      uploaded (answered (trace_of r)) = [] ∧
      confirmed (answered (trace_of r)) = []
  end.
Proof.
  destruct op as [[b | path] | | bucket [[| a p] |] | dest | email |];
    unfold_facade; cbn; crunch h; done.
Qed.

Section Returned.

Context {W : Type} (h : driver_handler W).

Lemma did_trace_app (t1 t2 : list driver_obs) :
  did (t1 ++ t2) = did_app (did t1) (did t2).
Proof.
  unfold did, did_app, uploaded, confirmed. cbn.
  by rewrite driver_answered_app, !omap_app.
Qed.

Lemma did_s_bind {A B : Type} (m : S_ A) (f : A → S_ B) (w : W) :
  did (driver_trace (run h (s_bind m f) w)) =
  match driver_result (run h m w) with
  | Returned a =>
      did_app (did (driver_trace (run h m w)))
        (did (driver_trace (run h (f a) (driver_state (run h m w)))))
  | Raised _ => did (driver_trace (run h m w))
  end.
Proof.
  rewrite run_s_bind. cbn zeta.
  destruct (driver_result (run h m w)); [| done].
  cbn [driver_trace snd]. apply did_trace_app.
Qed.

Lemma returned_s_bind {A B : Type} (m : S_ A) (f : A → S_ B) (w : W) :
  failure_of (driver_result (run h (s_bind m f) w)) = None →
  ∃ a, driver_result (run h m w) = Returned a ∧
       failure_of (driver_result (run h (f a) (driver_state (run h m w))))
       = None.
Proof.
  rewrite run_s_bind. cbn zeta.
  destruct (driver_result (run h m w)) as [a | e]; [| done].
  intros Hr. by exists a.
Qed.

Lemma did_print (line : string) (w : W) :
  did (driver_trace (run h (print_ line) w)) = ([], []).
Proof. by rewrite run_print. Qed.

Lemma did_lift_acl (self : ObjectWrapper) (op : operation) (w : W) :
  is_acl_op op = true →
  did (driver_trace (run h (lift (perform self op)) w)) = ([], []).
Proof.
  intros Hop. rewrite run_lift. cbn [driver_trace snd].
  unfold did. rewrite driver_answered_lift.
  pose proof (perform_uploads W (facade_handler h) self op w) as H.
  destruct op; try discriminate; cbn zeta in H; by destruct H as [-> ->].
Qed.

Lemma did_lift_put (self : ObjectWrapper) (data : put_data_arg) (w : W) :
  failure_of (driver_result (run h (lift (put self data)) w)) = None →
  did (driver_trace (run h (lift (put self data)) w))
  = ([object self], [object self]).
Proof.
  rewrite run_lift. cbn [driver_trace driver_result fst snd].
  intros Hr. unfold did. rewrite driver_answered_lift.
  destruct (perform_uploads W (facade_handler h) self (op_put data) w Hr)
    as [H1 H2].
  exact (f_equal2 pair H1 H2).
Qed.

(** The part of the loop after the upload uploads nothing. *)
Lemma did_grant (json_dumps : option (list Grant) → string) (stars : string)
    (self : ObjectWrapper) (w : W) :
  did (driver_trace
         (run h
            (s_try_except
               (s_bind (lift (put_acl self grantee_email)) (fun _ =>
                s_bind (lift (get_acl self)) (fun acl =>
                print_ ("Put ACL grants on object " +:+ self_key self +:+ ": "
                        +:+ json_dumps (grants acl)))))
               is_ClientError
               (fun error =>
                  if String.eqb (Code error) unresolvable then
                    s_bind (print_ stars) (fun _ =>
                    s_bind (print_ unresolvable_message) (fun _ =>
                    print_ stars))
                  else s_raise error)) w))
  = ([], []).
Proof.
  rewrite run_s_try_except. cbn zeta.
  set (body := s_bind (lift (put_acl self grantee_email)) _).
  assert (Hbody : ∀ w', did (driver_trace (run h body w')) = ([], [])).
  { intros w'. unfold body. rewrite did_s_bind.
    rewrite (did_lift_acl self (op_put_acl grantee_email)) by done.
    destruct (driver_result _); [| done].
    rewrite did_s_bind. rewrite (did_lift_acl self op_get_acl) by done.
    destruct (driver_result _); [| done]. by rewrite did_print. }
  destruct (driver_result (run h body w)) as [a | e]; [apply Hbody |].
  destruct (is_ClientError e); [| apply Hbody].
  cbn [driver_trace snd]. rewrite did_trace_app, Hbody.
  destruct (String.eqb (Code e) unresolvable); [| done].
  destruct (three_prints h stars unresolvable_message stars
              (driver_state (run h body w))) as [w3 ->].
  done.
Qed.

Lemma did_upload_one (json_dumps : option (list Grant) → string)
    (bucket : Bucket) (file_name : string) (w : W) :
  failure_of
    (driver_result (run h (upload_one json_dumps bucket file_name) w))
  = None →
  did (driver_trace (run h (upload_one json_dumps bucket file_name) w))
  = ([Object (name bucket) file_name], [Object (name bucket) file_name]).
Proof.
  unfold upload_one. intros Hr.
  apply returned_s_bind in Hr as (a & Hput & Hr).
  rewrite did_s_bind, Hput.
  rewrite did_lift_put by (by rewrite Hput).
  apply returned_s_bind in Hr as (b & Hprint & Hr).
  rewrite did_s_bind, Hprint, did_print, did_grant. done.
Qed.

Lemma did_for_each (json_dumps : option (list Grant) → string)
    (bucket : Bucket) (names : list string) (w : W) :
  failure_of
    (driver_result
       (run h (for_each names (upload_one json_dumps bucket)) w)) = None →
  did (driver_trace
         (run h (for_each names (upload_one json_dumps bucket)) w))
  = (Object (name bucket) <$> names, Object (name bucket) <$> names).
Proof.
  revert w. induction names as [| x names IH]; intros w; [done |].
  cbn [for_each]. intros Hr.
  apply returned_s_bind in Hr as (a & Hone & Hr).
  rewrite did_s_bind, Hone, did_upload_one by (by rewrite Hone).
  rewrite IH by done. done.
Qed.

Lemma did_basicConfig (lvl : level) (format : string) (w : W) :
  did (driver_trace (run h (basicConfig lvl format) w)) = ([], []).
Proof. unfold basicConfig. cbn. by destruct (h _ w) as [[] ?]. Qed.

Lemma did_create_bucket (bucket : Bucket) (w : W) :
  did (driver_trace (run h (create_bucket bucket) w)) = ([], []).
Proof.
  unfold create_bucket, region_name, s_bind, print_. cbn.
  destruct (h client_region_name w) as [region w1]. cbn.
  destruct (h (Bucket_create bucket region) w1) as [[[err msg] | []] w2]; cbn.
  - destruct (is_ClientError err); cbn; [| done].
    by destruct (h _ w2) as [[] w3].
  - done.
Qed.

End Returned.

(** X10.  A run of the demo that returns has had the uploads of the three
    keys accepted by the storage client, and their existence confirmed by
    the waiter, once each and in the order js/index_exam.js,
    js/index_public.js, js/index.js, all in the bucket
    evaluationroom.com; it made no other upload. *)
Theorem demo_returned_uploaded_all :
  ∀ (json_dumps : option (list Grant) → string) (W : Type)
    (h : driver_handler W) (w : W),
    let r := run h (upload_react_files json_dumps) w in
    driver_result r = Returned () →
    uploaded (driver_answered (driver_trace r))
    = Object "evaluationroom.com" <$> list_file_names ∧
    confirmed (driver_answered (driver_trace r))
    = Object "evaluationroom.com" <$> list_file_names.
Proof.
  intros json_dumps W h w r Hret.
  assert (Hr : failure_of (driver_result r) = None) by (by rewrite Hret).
  assert (Hdid : did (driver_trace r)
                 = (Object "evaluationroom.com" <$> list_file_names,
                    Object "evaluationroom.com" <$> list_file_names)).
  2: { by injection Hdid as -> ->. }
  clear Hret. subst r. unfold upload_react_files in *.
  repeat (let Hp := fresh "Hp" in
          apply returned_s_bind in Hr as (? & Hp & Hr);
          rewrite did_s_bind, Hp).
  rewrite !did_print, did_basicConfig, did_create_bucket.
  rewrite did_for_each by (by rewrite Hp4).
  done.
Qed.

(** ** The creation of the bucket *)

Section Creation.

Context {W : Type} (h : driver_handler W).

Lemma loop_s_bind {A B : Type} (m : S_ A) (f : A → S_ B) (w : W) :
  Forall loop_obs (driver_trace (run h m w)) →
  (∀ a w', Forall loop_obs (driver_trace (run h (f a) w'))) →
  Forall loop_obs (driver_trace (run h (s_bind m f) w)).
Proof.
  intros Hm Hf. rewrite run_s_bind. cbn zeta.
  destruct (driver_result (run h m w)) as [a | e]; [| done].
  apply Forall_app. split; [done | apply Hf].
Qed.

Lemma loop_lift {R : Type} (p : prog R) (w : W) :
  Forall loop_obs (driver_trace (run h (lift p) w)).
Proof.
  rewrite run_lift. cbn. apply Forall_forall. intros o Ho.
  apply list_elem_of_fmap in Ho as ([c r] & -> & _). exact I.
Qed.

Lemma loop_print (line : string) (w : W) :
  Forall loop_obs (driver_trace (run h (print_ line) w)).
Proof. rewrite run_print. repeat constructor. Qed.

Lemma loop_upload_one (json_dumps : option (list Grant) → string)
    (bucket : Bucket) (file_name : string) (w : W) :
  Forall loop_obs
    (driver_trace (run h (upload_one json_dumps bucket file_name) w)).
Proof.
  unfold upload_one.
  apply loop_s_bind; [apply loop_lift | intros _ ?].
  apply loop_s_bind; [apply loop_print | intros _ ?].
  rewrite run_s_try_except. cbn zeta.
  set (body := s_bind (lift (put_acl _ _)) _).
  assert (Hbody : ∀ w', Forall loop_obs (driver_trace (run h body w'))).
  { intros ?. apply loop_s_bind; [apply loop_lift | intros _ ?].
    apply loop_s_bind; [apply loop_lift | intros ? ?]. apply loop_print. }
  destruct (driver_result (run h body _)) as [a | e]; [apply Hbody |].
  destruct (is_ClientError e); [| apply Hbody].
  apply Forall_app. split; [apply Hbody |].
  destruct (String.eqb (Code e) unresolvable); [| constructor].
  destruct (three_prints h (str_mul "*" 88) unresolvable_message
              (str_mul "*" 88) (driver_state (run h body w'0))) as [w3 ->].
  repeat constructor.
Qed.

Lemma loop_for_each (json_dumps : option (list Grant) → string)
    (bucket : Bucket) (names : list string) (w : W) :
  Forall loop_obs
    (driver_trace (run h (for_each names (upload_one json_dumps bucket)) w)).
Proof.
  revert w. induction names as [| x names IH]; intros w; cbn [for_each].
  - constructor.
  - apply loop_s_bind; [apply loop_upload_one | intros _ ?; apply IH].
Qed.

Lemma create_failures_loop (tr : list driver_obs) :
  Forall loop_obs tr → create_failures tr = [].
Proof.
  induction 1 as [| [c r] tr Ho _ IH]; [done |].
  unfold create_failures in *. cbn [omap list_omap]. rewrite IH.
  by destruct c.
Qed.

(** The first call of the loop: the [open] of the first file. *)
Lemma for_each_first_call (json_dumps : option (list Grant) → string)
    (bucket : Bucket) (x : string) (names : list string)
    {B : Type} (f : unit → S_ B) (w : W) :
  hd_error
    (facade_calls
       (driver_trace
          (run h (s_bind (for_each (x :: names) (upload_one json_dumps bucket))
                    f) w)))
  = Some (open_rb (directory_file_names +:+ x)).
Proof.
  assert (Hput : ∀ self path w', ∃ r tr,
            trace_of (exec (facade_handler h) (put self (DataStr path)) w')
            = existT (open_rb path) r :: tr).
  { intros self path w'. unfold_facade. cbn.
    destruct (facade_handler h (open_rb path) w') as [r w1].
    destruct (exec _ _ w1) as [[? ?] tr]. by exists r, tr. }
  assert (Hhead : ∀ {A C : Type} (m : S_ A) (g : A → S_ C) w' c,
            hd_error (facade_calls (driver_trace (run h m w'))) = Some c →
            hd_error (facade_calls (driver_trace (run h (s_bind m g) w')))
            = Some c).
  { intros A C m g w' c Hc. rewrite run_s_bind. cbn zeta.
    destruct (driver_result (run h m w')); [| done].
    cbn [driver_trace snd]. rewrite facade_calls_app.
    by destruct (facade_calls (driver_trace (run h m w'))). }
  apply Hhead. cbn [for_each]. apply Hhead. unfold upload_one. apply Hhead.
  rewrite run_lift. cbn [driver_trace snd]. rewrite facade_calls_lift.
  destruct (Hput (init (Object (name bucket) x))
              (directory_file_names +:+ x) w) as (r & tr & ->).
  done.
Qed.

End Creation.

(** X11.  When [bucket.create] raises a [ClientError], the demo prints
    the message of the error and goes on: its next call to the facade is
    the [open] of the first file.  When [bucket.create] raises an
    exception of another class, the demo raises it and calls the facade
    not at all. *)
Theorem demo_bucket_creation_failure :
  ∀ (json_dumps : option (list Grant) → string) (W : Type)
    (h : driver_handler W) (w : W) (e : exn) (message : string),
    let r := run h (upload_react_files json_dumps) w in
    (e, message) ∈ create_failures (driver_trace r) →
    if is_ClientError e
    then creation_message message ∈ printed (driver_trace r) ∧
         hd_error (facade_calls (driver_trace r))
         = Some (open_rb (directory_file_names +:+ "js/index_exam.js"))
    else driver_result r = Raised e ∧
         facade_calls (driver_trace r) = [].
Proof.
  intros json_dumps W h w e message r. subst r.
  unfold upload_react_files, list_file_names.
  set (rule := str_mul "-" 88).
  set (loop := s_bind (for_each _ _) _).
  assert (Hloop : ∀ w', create_failures (driver_trace (run h loop w')) = []).
  { intros w'. apply create_failures_loop. unfold loop.
    apply loop_s_bind; [apply loop_for_each | intros; apply loop_print]. }
  assert (Hfirst : ∀ w',
            hd_error (facade_calls (driver_trace (run h loop w')))
            = Some (open_rb (directory_file_names +:+ "js/index_exam.js"))).
  { intros w'. apply for_each_first_call. }
  clearbody loop rule.
  unfold create_bucket, region_name. unfold s_bind, print_, basicConfig.
  cbn [run sbind].
  destruct (h (print rule) w) as [[] w1]. cbn [run sbind].
  destruct (h (print _) w1) as [[] w2]. cbn [run sbind].
  destruct (h (print rule) w2) as [[] w3]. cbn [run sbind].
  destruct (h (logging_basicConfig _ _) w3) as [[] w4]. cbn [run sbind].
  destruct (h client_region_name w4) as [region w5]. cbn [run sbind].
  destruct (h (Bucket_create _ region) w5) as [[[err msg] | []] w6].
  - destruct (is_ClientError err) eqn:Hcls; cbn [run sbind].
    + destruct (h (print _) w6) as [[] w7].
      destruct (run h loop w7) as [[res w8] tr] eqn:Hrun.
      specialize (Hloop w7). specialize (Hfirst w7).
      rewrite Hrun in Hloop, Hfirst. cbn in Hloop, Hfirst.
      cbn -[creation_message]. unfold create_failures in *.
      cbn [omap list_omap projT1 projT2]. rewrite Hloop.
      intros Hin. apply list_elem_of_singleton in Hin as [= -> ->].
      rewrite Hcls. split; [| done].
      do 3 right. left.
    + cbn. intros Hin. apply list_elem_of_singleton in Hin as [= -> ->].
      by rewrite Hcls.
  - cbn [run sbind].
    destruct (run h loop w6) as [[res w8] tr] eqn:Hrun.
    specialize (Hloop w6). rewrite Hrun in Hloop. cbn in Hloop.
    cbn. unfold create_failures in *. cbn [omap list_omap]. rewrite Hloop.
    intros Hin. by apply elem_of_nil in Hin.
Qed.

(** * Further properties on the in-memory service *)

(** X6.  [put_acl] is not idempotent: after two calls with the same
    e-mail address that returned, the policy of the object holds the
    grants there were before followed by the same new grant twice, under
    the owner there was; and [get_acl] then returns the ACL with those
    grants and that owner when the owner has a display name, raises the
    [ClientError] of the service when the service fails the request, and
    otherwise raises the error of the subscript [owner['DisplayName']]. *)
Theorem put_acl_twice_appends_twice :
  ∀ (w : World) (self : ObjectWrapper) (email : string) (ob : RemoteObject),
    store w !! address (object self) = Some ob →
    let r1 := exec serve (put_acl self email) w in
    let r2 := exec serve (put_acl self email) (state_of r1) in
    result_of r1 = Returned () →
    result_of r2 = Returned () →
    policy <$> store (state_of r2) !! address (object self)
    = Some (mkPolicy (Grants (policy ob) ++
                      [email_read_grant email; email_read_grant email])
                     (Owner_ (policy ob))) ∧
    result_of (exec serve (get_acl self) (state_of r2)) =
    match fault (state_of r2) with
    | Some code => Raised (ClientError code)
    | None =>
        match display_name_of (Owner_ (policy ob)) with
        | Returned _ =>
            Returned
              {| acl_object := object self;
                 grants := Some (Grants (policy ob) ++
                                 [email_read_grant email;
                                  email_read_grant email]);
                 owner := Owner_ (policy ob) |}
        | Raised e => Raised e
        end
    end.
Proof.
  intros w self email ob Hob r1 r2 Hret1 Hret2. subst r1 r2.
  destruct (put_acl_returned self email w Hret1) as (ob1 & Hvis1 & Hstore1).
  destruct (put_acl_returned self email _ Hret2) as (ob2 & Hvis2 & Hstore2).
  apply visible_Some in Hvis1 as [Hob1 Hlag1].
  rewrite Hob in Hob1. injection Hob1 as <-.
  apply visible_Some in Hvis2 as [Hob2 Hlag2].
  rewrite Hstore1, lookup_insert_eq in Hob2. injection Hob2 as <-.
  cbn [content policy lag Grants Owner_] in Hstore2, Hlag2.
  split.
  - rewrite Hstore2, lookup_insert_eq. cbn. by rewrite <- app_assoc.
  - rewrite exec_get_acl.
    destruct (fault (state_of _)); [done |].
    erewrite (proj2 (visible_Some _ _ _)).
    2: { rewrite Hstore2, lookup_insert_eq. done. }
    cbn [content policy lag Grants Owner_]. by rewrite <- app_assoc.
Qed.

Lemma put_acl_twice_appends_twice_witness :
  let r1 := exec serve (put_acl demo_object "fcernaf@gmail.com") demo_world in
  let r2 := exec serve (put_acl demo_object "fcernaf@gmail.com")
              (state_of r1) in
  policy <$> store (state_of r2) !! address (object demo_object)
  = Some (mkPolicy ([mkGrant (CanonicalUser demo_owner) FULL_CONTROL] ++
                    [email_read_grant "fcernaf@gmail.com";
                     email_read_grant "fcernaf@gmail.com"])
                   (Some demo_owner)) ∧
  result_of (exec serve (get_acl demo_object) (state_of r2)) =
  match fault (state_of r2) with
  | Some code => Raised (ClientError code)
  | None =>
      match display_name_of (Some demo_owner) with
      | Returned _ =>
          Returned
            {| acl_object := object demo_object;
               grants := Some ([mkGrant (CanonicalUser demo_owner) FULL_CONTROL] ++
                               [email_read_grant "fcernaf@gmail.com";
                                email_read_grant "fcernaf@gmail.com"]);
               owner := Some demo_owner |}
      | Raised e => Raised e
      end
  end.
Proof.
  apply (put_acl_twice_appends_twice demo_world demo_object
           "fcernaf@gmail.com" (mkRemote ["a"%byte] demo_policy 0)).
  - vm_compute. reflexivity.
  - vm_compute. reflexivity.
  - vm_compute. reflexivity.
Defined.

(** The wait changes nothing of an object but its lag, whatever it
    answers. *)
Lemma serve_wait_keeps (o : s3_object) (w w1 : World) (r : exn + unit)
    (a : string * string) :
  serve (Object_wait_until_exists o) w = (r, w1) →
  content <$> store w1 !! a = content <$> store w !! a ∧
  policy <$> store w1 !! a = policy <$> store w !! a.
Proof.
  unfold serve, serve_wait. destruct (fault w); [by intros [= _ <-] |].
  destruct (store w !! address o) as [ob |] eqn:Hob; [| by intros [= _ <-]].
  case_decide; intros [= _ <-]; cbn;
    (destruct (decide (a = address o)) as [-> | Hne];
     [rewrite lookup_insert_eq, Hob; done
     | rewrite lookup_insert_ne by done; done]).
Qed.

(** X7.  Nothing is rolled back: once the storage client has accepted the
    upload of [put], the object holds the payload under the public-read
    policy when [put] is over, also when [put] raises because the wait
    for the object failed. *)
Theorem put_upload_is_not_rolled_back :
  ∀ (w : World) (self : ObjectWrapper) (data : put_data_arg)
    (body : put_body),
    let r := exec serve (put self data) w in
    Object_put (object self) body "public-read" ∈ answered (trace_of r) →
    ∃ bs ob,
      payload_bytes w data = Some bs ∧
      store (state_of r) !! address (object self) = Some ob ∧
      content ob = bs ∧
      public_read_grant ∈ Grants (policy ob).
Proof.
  intros w self data body.
  destruct data as [b | path]; unfold_facade; cbn; crunch serve; cbn;
    intros Hin;
    repeat (apply elem_of_cons in Hin as [Hin | Hin]; [try discriminate |]);
    try (by apply elem_of_nil in Hin); clear Hin.
  all: repeat match goal with
         | E : serve (logger_info _ _) _ = _ |- _ => apply serve_info in E as ->
         | E : serve (logger_exception _ _) _ = _ |- _ =>
             apply serve_exception in E as ->
         | E : serve (file_close _) _ = _ |- _ =>
             apply serve_close_inv in E as ->
         | E : serve (open_rb _) _ = (inr _, _) |- _ =>
             apply serve_open_returned in E as (bs0 & Hfile & -> & ->)
         | E : serve (Object_put _ _ _) _ = (inr _, _) |- _ =>
             apply serve_put_returned in E as (bs & gs & Hb & Hf & Hc & ->)
         end; cbn.
  all: rewrite canned_public_read in Hc; injection Hc as <-.
  all: cbn in Hb; try rewrite lookup_insert_eq in Hb; injection Hb as <-.
  all: match goal with
       | E : serve (Object_wait_until_exists _) _ = _ |- _ =>
           destruct (serve_wait_keeps _ _ _ _ (address (object self)) E)
             as [Hcont Hpol]
       end; cbn in Hcont, Hpol; rewrite lookup_insert_eq in Hcont, Hpol.
  all: match goal with
       | |- context [store ?w !! _] =>
           destruct (store w !! address (object self)) as [ob |];
             [| discriminate]
       end.
  all: injection Hcont as Hcont; injection Hpol as Hpol.
  all: eexists _, ob; repeat split; try done.
  all: first [ rewrite Hpol; cbn; apply list_elem_of_In; cbn; tauto
             | by rewrite Hcont ].
Qed.

Lemma put_upload_is_not_rolled_back_witness :
  let r := exec serve (put new_object (DataBytes ["i"%byte])) slow_world in
  ∃ bs ob,
    payload_bytes slow_world (DataBytes ["i"%byte]) = Some bs ∧
    store (state_of r) !! address (object new_object) = Some ob ∧
    content ob = bs ∧
    public_read_grant ∈ Grants (policy ob).
Proof.
  apply (put_upload_is_not_rolled_back slow_world new_object
           (DataBytes ["i"%byte]) (BodyBytes ["i"%byte])).
  vm_compute. left.
Defined.

(** ** The demo on the in-memory world *)

Lemma demo_stays_in_scope_witness :
  in_scope (open_rb (build_file "js/index_exam.js")).
Proof.
  apply (demo_stays_in_scope demo_json_dumps DemoWorld drive ready_demo).
  vm_compute. left.
Defined.

Lemma demo_failure_is_explained_or_fatal_witness :
  let r := run drive (upload_react_files demo_json_dumps) incomplete_demo in
  let post :=
    [DObs (facade (logger_exception
                     "Expected file name or binary data, got '%s'."
                     [build_file "js/index_public.js"])) ()] in
  driver_result r
  = Raised (IOError ("No such file or directory: "
                     +:+ build_file "js/index_public.js")) ∧
  requests post = [] ∧
  opened_paths (facade_calls post) = [] ∧
  printed post = [].
Proof.
  apply (demo_failure_is_explained_or_fatal demo_json_dumps DemoWorld drive
           incomplete_demo
           (take 19 (driver_trace
                       (run drive (upload_react_files demo_json_dumps)
                          incomplete_demo)))
           (DObs (facade (open_rb (build_file "js/index_public.js")))
              (inl (IOError ("No such file or directory: "
                             +:+ build_file "js/index_public.js"))))
           [DObs (facade (logger_exception
                            "Expected file name or binary data, got '%s'."
                            [build_file "js/index_public.js"])) ()]
           (open_rb (build_file "js/index_public.js"))
           (IOError ("No such file or directory: "
                     +:+ build_file "js/index_public.js"))).
  - vm_compute. reflexivity.
  - reflexivity.
  - reflexivity.
Defined.

Lemma demo_returned_uploaded_all_witness :
  let r := run drive (upload_react_files demo_json_dumps) ready_demo in
  uploaded (driver_answered (driver_trace r))
  = Object "evaluationroom.com" <$> list_file_names ∧
  confirmed (driver_answered (driver_trace r))
  = Object "evaluationroom.com" <$> list_file_names.
Proof.
  apply (demo_returned_uploaded_all demo_json_dumps DemoWorld drive
           ready_demo).
  vm_compute. reflexivity.
Defined.

Lemma demo_bucket_creation_failure_witness :
  let r := run drive (upload_react_files demo_json_dumps) incomplete_demo in
  creation_message
    "Your previous request to create the named bucket succeeded and you already own it"
  ∈ printed (driver_trace r) ∧
  hd_error (facade_calls (driver_trace r))
  = Some (open_rb (directory_file_names +:+ "js/index_exam.js")).
Proof.
  apply (demo_bucket_creation_failure demo_json_dumps DemoWorld drive
           incomplete_demo (ClientError "BucketAlreadyOwnedByYou")).
  vm_compute. left.
Defined.

(** ** The demo against a healthy service *)

Lemma serve_open_ok (path : string) (bs : bytes) (w : World) :
  files w !! path = Some bs →
  serve (open_rb path) w
  = (inr (next_file w),
     set_opened (<[next_file w := bs]> (opened w)) (S (next_file w)) w).
Proof. intros H. unfold serve, serve_open. by rewrite H. Qed.

Lemma serve_put_ok (o : s3_object) (b : put_body) (bs : bytes) (w : World) :
  body_bytes w b = Some bs →
  fault w = None →
  serve (Object_put o b "public-read") w
  = (inr (),
     tick (set_store
             (<[address o :=
                  mkRemote bs
                    (mkPolicy [mkGrant (CanonicalUser (account w)) FULL_CONTROL;
                               public_read_grant] (Some (account w)))
                    (lag_at w (calls w))]> (store w)) w)).
Proof.
  intros Hb Hf. unfold serve, serve_put.
  by rewrite Hb, Hf, canned_public_read.
Qed.

Lemma serve_wait_ok (o : s3_object) (ob : RemoteObject) (w : World) :
  store w !! address o = Some ob →
  fault w = None →
  lag ob < attempts w →
  serve (Object_wait_until_exists o) w
  = (inr (),
     tick (set_store
             (<[address o := mkRemote (content ob) (policy ob) 0]> (store w))
             w)).
Proof.
  intros Hob Hf Hlag. unfold serve, serve_wait. rewrite Hf, Hob.
  by rewrite decide_True.
Qed.

Lemma serve_acl_load_ok (o : s3_object) (ob : RemoteObject) (w : World) :
  visible w o = Some ob →
  fault w = None →
  serve (ObjectAcl_load o) w
  = (inr (mkAcl o (Some (Grants (policy ob))) (Owner_ (policy ob))), tick w).
Proof. intros Hv Hf. unfold serve, serve_acl_load. by rewrite Hf, Hv. Qed.

Lemma serve_acl_put_ok (o : s3_object) (p : AccessControlPolicy)
    (ob : RemoteObject) (w : World) :
  visible w o = Some ob →
  fault w = None →
  serve (ObjectAcl_put o p) w
  = (inr (),
     tick (set_store (<[address o := mkRemote (content ob) p (lag ob)]>
                        (store w)) w)).
Proof. intros Hv Hf. unfold serve, serve_acl_put. by rewrite Hf, Hv. Qed.

Lemma serve_info_eq (fmt : string) (args : list string) (w : World) :
  serve (logger_info fmt args) w = ((), add_log (mkLog INFO fmt args) w).
Proof. reflexivity. Qed.

Lemma serve_close_eq (f : file) (w : World) :
  serve (file_close f) w
  = ((), set_opened (delete f (opened w)) (next_file w) w).
Proof. reflexivity. Qed.

Lemma same_setting_healthy (w w' : World) :
  same_setting w w' → healthy w → healthy w'.
Proof.
  intros (_ & Ha & Hf & Hl & _) [H1 H2]. split; intros n.
  - by rewrite Hf.
  - by rewrite Hl, Ha.
Qed.

Lemma same_setting_trans (w1 w2 w3 : World) :
  same_setting w1 w2 → same_setting w2 w3 → same_setting w1 w3.
Proof.
  intros (A1 & B1 & C1 & D1 & E1) (A2 & B2 & C2 & D2 & E2).
  repeat split; congruence.
Qed.

(** [put] of a file that is there, on a healthy service. *)
Lemma put_file_runs (self : ObjectWrapper) (path : string) (bs : bytes)
    (w : World) :
  healthy w →
  files w !! path = Some bs →
  let r := exec serve (put self (DataStr path)) w in
  result_of r = Returned () ∧
  store (state_of r)
  = <[address (object self) :=
        mkRemote bs
          (mkPolicy [mkGrant (CanonicalUser (account w)) FULL_CONTROL;
                     public_read_grant] (Some (account w))) 0]> (store w) ∧
  same_setting w (state_of r) ∧
  calls (state_of r) = S (S (calls w)).
Proof.
  intros [Hf Hl] Hfile. unfold_facade. cbn.
  rewrite (serve_open_ok path bs w Hfile). cbn.
  erewrite serve_put_ok;
    [| cbn; apply lookup_insert_eq | apply Hf]. cbn.
  erewrite serve_wait_ok;
    [| cbn; apply lookup_insert_eq | apply Hf | cbn; apply Hl]. cbn.
  rewrite serve_info_eq. cbn. rewrite serve_close_eq. cbn.
  rewrite insert_insert_eq. done.
Qed.

Lemma put_acl_runs (self : ObjectWrapper) (email : string)
    (ob : RemoteObject) (w : World) :
  healthy w →
  visible w (object self) = Some ob →
  let r := exec serve (put_acl self email) w in
  result_of r = Returned () ∧
  store (state_of r)
  = <[address (object self) :=
        mkRemote (content ob)
          (mkPolicy (Grants (policy ob) ++ [email_read_grant email])
                    (Owner_ (policy ob)))
          (lag ob)]> (store w) ∧
  same_setting w (state_of r) ∧
  calls (state_of r) = S (S (calls w)).
Proof.
  intros [Hf Hl] Hvis. unfold_facade. cbn.
  rewrite (serve_acl_load_ok _ ob w Hvis (Hf _)). cbn.
  erewrite serve_acl_put_ok; [| rewrite visible_tick; exact Hvis | apply Hf].
  cbn. rewrite serve_info_eq. cbn.
  by destruct (Grants (policy ob)).
Qed.

Lemma get_acl_runs (self : ObjectWrapper) (ob : RemoteObject)
    (display_name : string) (w : World) :
  healthy w →
  visible w (object self) = Some ob →
  display_name_of (Owner_ (policy ob)) = Returned display_name →
  let r := exec serve (get_acl self) w in
  result_of r
  = Returned (mkAcl (object self) (Some (Grants (policy ob)))
                    (Owner_ (policy ob))) ∧
  store (state_of r) = store w ∧
  same_setting w (state_of r) ∧
  calls (state_of r) = S (calls w).
Proof.
  intros [Hf Hl] Hvis Hname. unfold_facade. cbn.
  rewrite (serve_acl_load_ok _ ob w Hvis (Hf _)). cbn.
  unfold display_name_of in Hname.
  destruct (Owner_ (policy ob)) as [d |]; [| discriminate].
  destruct (DisplayName d); [| discriminate]. cbn.
  rewrite serve_info_eq. cbn. done.
Qed.

(** The facade runs in the in-memory world of the demo as on the
    in-memory service. *)
Lemma exec_drive {R : Type} (p : prog R) (d : DemoWorld) :
  exec (facade_handler drive) p d =
  let r := exec serve p (service d) in
  (result_of r, with_service (state_of r) d, trace_of r).
Proof.
  revert d. induction p as [a | c k IH]; intros d; cbn.
  - by destruct d.
  - change (facade_handler drive c d)
      with (let '(r, s) := serve c (service d) in (r, with_service s d)).
    destruct (serve c (service d)) as [r s]. rewrite IH. cbn.
    by destruct (exec serve (k r) s) as [[x s2] tr].
Qed.

Lemma run_lift_drive {R : Type} (p : prog R) (d : DemoWorld) :
  run drive (lift p) d =
  let r := exec serve p (service d) in
  (result_of r, with_service (state_of r) d, map lift_obs (trace_of r)).
Proof. rewrite run_lift, exec_drive. done. Qed.

Lemma run_print_drive (line : string) (d : DemoWorld) :
  run drive (print_ line) d
  = (Returned (),
     mkDemo (service d) (stdout d ++ [line]) (region d) (create_answer d),
     [DObs (print line) ()]).
Proof. reflexivity. Qed.

(** One turn of the loop, for a file that is there, on a healthy
    service whose account has a display name. *)
Lemma upload_one_runs (json_dumps : option (list Grant) → string)
    (b k : string) (bs : bytes) (display_name : string) (d : DemoWorld) :
  healthy (service d) →
  DisplayName (account (service d)) = Some display_name →
  files (service d) !! build_file k = Some bs →
  let r := run drive (upload_one json_dumps (mkBucket b) k) d in
  driver_result r = Returned () ∧
  store (service (driver_state r))
  = <[(b, k) := mkRemote bs (granted_policy (account (service d))) 0]>
      (store (service d)) ∧
  same_setting (service d) (service (driver_state r)) ∧
  calls (service (driver_state r)) = calls (service d) + 5.
Proof.
  intros Hh Hname Hfile. unfold upload_one. cbn [name].
  set (self := init (Object b k)).
  (* put *)
  rewrite run_s_bind, run_lift_drive. cbn zeta.
  destruct (put_file_runs self (directory_file_names +:+ k) bs (service d)
              Hh Hfile) as (Hres1 & Hstore1 & Hset1 & Hcalls1).
  destruct (exec serve (put self _) (service d)) as [[res1 s1] t1].
  cbn in Hres1, Hstore1, Hset1, Hcalls1. subst res1.
  cbn [driver_result driver_state driver_trace result_of state_of trace_of
       fst snd].
  pose proof (same_setting_healthy _ _ Hset1 Hh) as Hh1.
  (* print *)
  rewrite run_s_bind, run_print_drive.
  cbn [driver_result driver_state driver_trace fst snd].
  (* try: put_acl, get_acl, print *)
  rewrite run_s_try_except. cbn zeta.
  rewrite run_s_bind, run_lift_drive. cbn zeta. cbn [service with_service].
  set (ob1 := mkRemote bs
                (mkPolicy [mkGrant (CanonicalUser (account (service d)))
                                   FULL_CONTROL; public_read_grant]
                          (Some (account (service d)))) 0) in *.
  assert (Hvis1 : visible s1 (object self) = Some ob1).
  { apply visible_Some. rewrite Hstore1, lookup_insert_eq. done. }
  destruct (put_acl_runs self grantee_email ob1 s1 Hh1 Hvis1)
    as (Hres2 & Hstore2 & Hset2 & Hcalls2).
  destruct (exec serve (put_acl self grantee_email) s1) as [[res2 s2] t2].
  cbn in Hres2, Hstore2, Hset2, Hcalls2. subst res2.
  cbn [driver_result driver_state driver_trace result_of state_of trace_of
       fst snd].
  pose proof (same_setting_healthy _ _ Hset2 Hh1) as Hh2.
  rewrite run_s_bind, run_lift_drive. cbn zeta. cbn [service with_service].
  set (ob2 := mkRemote bs (granted_policy (account (service d))) 0).
  assert (Hvis2 : visible s2 (object self) = Some ob2).
  { apply visible_Some. rewrite Hstore2, lookup_insert_eq. done. }
  assert (Hname2 : display_name_of (Owner_ (policy ob2))
                   = Returned display_name).
  { cbn. by rewrite Hname. }
  destruct (get_acl_runs self ob2 display_name s2 Hh2 Hvis2 Hname2)
    as (Hres3 & Hstore3 & Hset3 & Hcalls3).
  destruct (exec serve (get_acl self) s2) as [[res3 s3] t3].
  cbn in Hres3, Hstore3, Hset3, Hcalls3. subst res3.
  cbn [driver_result driver_state driver_trace result_of state_of trace_of
       fst snd].
  rewrite run_print_drive.
  cbn [driver_result driver_state driver_trace fst snd service with_service].
  split; [done |]. split; [| split].
  - rewrite Hstore3, Hstore2, Hstore1. cbn. by rewrite insert_insert_eq.
  - eauto using same_setting_trans.
  - lia.
Qed.

Lemma for_each_runs (json_dumps : option (list Grant) → string)
    (b : string) (names : list string) (display_name : string)
    (d : DemoWorld) :
  healthy (service d) →
  DisplayName (account (service d)) = Some display_name →
  (∀ k, k ∈ names → is_Some (files (service d) !! build_file k)) →
  let r := run drive (for_each names (upload_one json_dumps (mkBucket b))) d in
  driver_result r = Returned () ∧
  same_setting (service d) (service (driver_state r)) ∧
  calls (service (driver_state r)) = calls (service d) + 5 * length names ∧
  (∀ k bs, k ∈ names → files (service d) !! build_file k = Some bs →
           store (service (driver_state r)) !! (b, k)
           = Some (mkRemote bs (granted_policy (account (service d))) 0)) ∧
  (∀ a, (∀ k, k ∈ names → a ≠ (b, k)) →
        store (service (driver_state r)) !! a = store (service d) !! a).
Proof.
  revert d. induction names as [| x names IH]; intros d Hh Hname Hfiles.
  { cbn. repeat split; try done; try lia.
    intros k bs Hk. by apply elem_of_nil in Hk. }
  cbn [for_each]. rewrite run_s_bind. cbn zeta.
  destruct (Hfiles x (list_elem_of_here _ _)) as [bsx Hx].
  destruct (upload_one_runs json_dumps b x bsx display_name d Hh Hname Hx)
    as (Hres1 & Hstore1 & Hset1 & Hcalls1).
  destruct (run drive (upload_one json_dumps (mkBucket b) x) d)
    as [[res1 d1] t1].
  cbn in Hres1, Hstore1, Hset1, Hcalls1. subst res1.
  cbn [driver_result driver_state driver_trace fst snd].
  pose proof (same_setting_healthy _ _ Hset1 Hh) as Hh1.
  destruct Hset1 as (Hacc1 & Hatt1 & Hfault1 & Hlag1 & Hfiles1).
  assert (Hfiles' : ∀ k, k ∈ names →
                         is_Some (files (service d1) !! build_file k)).
  { intros k Hk. rewrite Hfiles1. apply Hfiles. by right. }
  assert (Hname1 : DisplayName (account (service d1)) = Some display_name).
  { by rewrite Hacc1. }
  destruct (IH d1 Hh1 Hname1 Hfiles') as (Hres & Hset & Hcalls & Hin & Hout).
  destruct (run drive (for_each names _) d1) as [[res d2] t2].
  cbn in Hres, Hset, Hcalls, Hin, Hout. subst res.
  cbn [driver_result driver_state driver_trace fst snd].
  split; [done |]. split; [| split; [| split]].
  - destruct Hset as (? & ? & ? & ? & ?). repeat split; congruence.
  - rewrite Hcalls, Hcalls1. cbn [length]. lia.
  - intros k bs Hk Hbs. destruct (decide (k ∈ names)) as [Hkn | Hkn].
    + rewrite <- Hacc1. apply Hin; [done |]. by rewrite Hfiles1.
    + apply elem_of_cons in Hk as [-> | Hk]; [| done].
      rewrite Hout, Hstore1, lookup_insert_eq by (intros k Hk [= ->]; done).
      congruence.
  - intros a Ha. rewrite Hout by (intros k Hk; apply Ha; by right).
    rewrite Hstore1, lookup_insert_ne; [done |].
    intros Heq. by apply (Ha x (list_elem_of_here _ _)).
Qed.

Lemma create_bucket_runs (bucket : Bucket) (d : DemoWorld) :
  match create_answer d with
  | inl (e, _) => is_ClientError e = true
  | inr _ => True
  end →
  let r := run drive (create_bucket bucket) d in
  driver_result r = Returned () ∧ service (driver_state r) = service d.
Proof.
  unfold create_bucket, region_name, s_bind, print_. cbn.
  destruct (create_answer d) as [[e msg] | []]; cbn; [| done].
  by intros ->.
Qed.

(** X12.  On the in-memory world where the service is healthy, the
    account that owns what is written has a display name, the three
    files of the build are there and the creation of the bucket succeeds
    or fails with a [ClientError], the demo returns after fifteen calls
    to the storage client (five for each file: the put, the wait, the
    load and the put of the ACL by [put_acl], and the load by
    [get_acl]), and each of the three keys of the bucket
    evaluationroom.com then holds, visibly, the bytes of its file under a
    policy of exactly three grants: full control for the owner, public
    read, and read for fcernaf@gmail.com. *)
Theorem demo_on_healthy_service :
  ∀ (json_dumps : option (list Grant) → string) (display_name : string)
    (d : DemoWorld),
    healthy (service d) →
    DisplayName (account (service d)) = Some display_name →
    (∀ k, k ∈ list_file_names →
          is_Some (files (service d) !! build_file k)) →
    match create_answer d with
    | inl (e, _) => is_ClientError e = true
    | inr _ => True
    end →
    let r := run drive (upload_react_files json_dumps) d in
    driver_result r = Returned () ∧
    calls (service (driver_state r)) = calls (service d) + 15 ∧
    ∀ k bs,
      k ∈ list_file_names →
      files (service d) !! build_file k = Some bs →
      visible (service (driver_state r)) (Object "evaluationroom.com" k)
      = Some (mkRemote bs (granted_policy (account (service d))) 0).
Proof.
  intros json_dumps display_name d Hh Hname Hfiles Hcreate.
  unfold upload_react_files.
  do 3 (rewrite run_s_bind, run_print_drive;
        cbn [driver_result driver_state driver_trace fst snd]).
  rewrite run_s_bind.
  change (run drive (basicConfig INFO "%(levelname)s: %(message)s") ?d0)
    with (Returned (), d0,
          [DObs (logging_basicConfig INFO "%(levelname)s: %(message)s") ()]).
  cbn [driver_result driver_state driver_trace fst snd].
  rewrite run_s_bind.
  match goal with
  | |- context [run drive (create_bucket ?b) ?d0] =>
      destruct (create_bucket_runs b d0 Hcreate) as [Hres0 Hserv0];
      destruct (run drive (create_bucket b) d0) as [[res0 d1] t0]
  end.
  cbn in Hres0, Hserv0. subst res0.
  cbn [driver_result driver_state driver_trace fst snd].
  rewrite run_s_bind.
  rewrite <- Hserv0 in Hh, Hname, Hfiles.
  destruct (for_each_runs json_dumps "evaluationroom.com" list_file_names
              display_name d1 Hh Hname Hfiles)
    as (Hres & Hset & Hcalls & Hin & _).
  destruct (run drive (for_each list_file_names _) d1) as [[res d2] t2].
  cbn in Hres, Hset, Hcalls, Hin. subst res.
  cbn [driver_result driver_state driver_trace fst snd].
  rewrite run_print_drive.
  cbn [driver_result driver_state driver_trace fst snd service].
  rewrite Hserv0 in *. split; [done |]. split; [exact Hcalls |].
  intros k bs Hk Hbs. apply visible_Some. split; [| done].
  by apply Hin.
Qed.

Lemma demo_on_healthy_service_witness :
  let r := run drive (upload_react_files demo_json_dumps) ready_demo in
  driver_result r = Returned () ∧
  calls (service (driver_state r)) = calls (service ready_demo) + 15 ∧
  ∀ k bs,
    k ∈ list_file_names →
    files (service ready_demo) !! build_file k = Some bs →
    visible (service (driver_state r)) (Object "evaluationroom.com" k)
    = Some (mkRemote bs (granted_policy (account (service ready_demo))) 0).
Proof.
  apply (demo_on_healthy_service demo_json_dumps "demo" ready_demo).
  - split; intros n; cbn; [done | lia].
  - reflexivity.
  - intros k Hk. cbn in Hk.
    repeat (apply elem_of_cons in Hk as [-> | Hk]);
      [vm_compute; eauto .. | by apply elem_of_nil in Hk].
  - exact I.
Defined.

(** ** Files in the demo *)

(** In every operation, on every path, the files closed are the files
    that [open] returned. *)
Lemma perform_files_balanced (W : Type) (h : handler W)
    (self : ObjectWrapper) (op : operation) (w : W) :
  files_opened (trace_of (exec h (perform self op) w))
  = closed_files (trace_of (exec h (perform self op) w)).
Proof.
  destruct op as [[b | path] | | bucket [[| a p] |] | dest | email |];
    unfold_facade; cbn; crunch h; done.
Qed.

Lemma facade_part_lift (tr : list obs) : facade_part (map lift_obs tr) = tr.
Proof. induction tr as [| [c r] tr IH]; cbn; [done |]. by f_equal. Qed.

Section Composite.

(** A property of traces that holds of the empty trace and of the
    concatenation of two traces of which it holds, holds of a run of the
    demo if it holds of the runs of its parts. *)
Context {W : Type} (h : driver_handler W) (Φ : list driver_obs → Prop).
Hypothesis Φ_nil : Φ [].
Hypothesis Φ_app : ∀ t1 t2, Φ t1 → Φ t2 → Φ (t1 ++ t2).
Hypothesis Φ_other :
  ∀ (c : driver_call) (r : driver_reply c),
    (∀ c', c ≠ facade c') → Φ [existT c r].
Hypothesis Φ_lift :
  ∀ (self : ObjectWrapper) (op : operation) (w : W),
    Φ (map lift_obs
         (trace_of (exec (facade_handler h) (perform self op) w))).

Lemma composite_s_bind {A B : Type} (m : S_ A) (f : A → S_ B) (w : W) :
  Φ (driver_trace (run h m w)) →
  (∀ a w', Φ (driver_trace (run h (f a) w'))) →
  Φ (driver_trace (run h (s_bind m f) w)).
Proof.
  intros Hm Hf. rewrite run_s_bind. cbn zeta.
  destruct (driver_result (run h m w)) as [a | e]; [| done].
  apply Φ_app; [done | apply Hf].
Qed.

Lemma composite_print (line : string) (w : W) :
  Φ (driver_trace (run h (print_ line) w)).
Proof. rewrite run_print. by apply Φ_other. Qed.

Lemma composite_perform (self : ObjectWrapper) (op : operation) (w : W) :
  Φ (driver_trace (run h (lift (perform self op)) w)).
Proof. rewrite run_lift. apply Φ_lift. Qed.

Lemma composite_upload_one (json_dumps : option (list Grant) → string)
    (bucket : Bucket) (file_name : string) (w : W) :
  Φ (driver_trace (run h (upload_one json_dumps bucket file_name) w)).
Proof.
  unfold upload_one.
  set (self := init (Object (name bucket) file_name)).
  apply composite_s_bind.
  { exact (composite_perform self
             (op_put (DataStr (directory_file_names +:+ file_name))) w). }
  intros _ ?.
  apply composite_s_bind; [apply composite_print | intros _ ?].
  rewrite run_s_try_except. cbn zeta.
  set (body := s_bind (lift (put_acl _ _)) _).
  assert (Hbody : ∀ w', Φ (driver_trace (run h body w'))).
  { intros w1. apply composite_s_bind.
    { exact (composite_perform self (op_put_acl grantee_email) w1). }
    intros _ w2. apply composite_s_bind.
    { exact (composite_perform self op_get_acl w2). }
    intros ? ?. apply composite_print. }
  destruct (driver_result (run h body _)) as [a | e]; [apply Hbody |].
  destruct (is_ClientError e); [| apply Hbody].
  apply Φ_app; [apply Hbody |].
  destruct (String.eqb (Code e) unresolvable); [| apply Φ_nil].
  repeat (apply composite_s_bind; [apply composite_print | intros _ ?]).
  apply composite_print.
Qed.

Lemma composite_demo (json_dumps : option (list Grant) → string) (w : W) :
  Φ (driver_trace (run h (upload_react_files json_dumps) w)).
Proof.
  unfold upload_react_files.
  repeat (apply composite_s_bind; [apply composite_print | intros _ ?]).
  apply composite_s_bind.
  { unfold basicConfig. cbn. destruct (h _ _) as [[] ?]. by apply Φ_other. }
  intros _ ?. apply composite_s_bind.
  { unfold create_bucket, region_name, s_bind, print_. cbn.
    destruct (h client_region_name _) as [region w1]. cbn.
    destruct (h (Bucket_create _ region) w1) as [[[err msg] | []] w2]; cbn.
    - destruct (is_ClientError err); cbn.
      + destruct (h _ w2) as [[] w3]. cbn.
        apply (Φ_app [_] [_; _]); [by apply Φ_other |].
        apply (Φ_app [_] [_]); by apply Φ_other.
      + apply (Φ_app [_] [_]); by apply Φ_other.
    - apply (Φ_app [_] [_]); by apply Φ_other. }
  intros _ ?. apply composite_s_bind; [| intros; apply composite_print].
  generalize list_file_names. intros names. revert w'3.
  induction names as [| x names IH]; intros wx; cbn [for_each].
  - apply Φ_nil.
  - apply composite_s_bind; [apply composite_upload_one | intros _ ?; apply IH].
Qed.

End Composite.

(** X13.  The demo leaks no file: on every path, also when the run is
    aborted by an exception, the files closed are exactly the files that
    [open] returned, in the same order. *)
Theorem demo_closes_every_file :
  ∀ (json_dumps : option (list Grant) → string) (W : Type)
    (h : driver_handler W) (w : W),
    let tr := driver_trace (run h (upload_react_files json_dumps) w) in
    files_opened (facade_part tr) = closed_files (facade_part tr).
Proof.
  intros json_dumps W h w.
  apply (composite_demo h
           (fun tr => files_opened (facade_part tr)
                      = closed_files (facade_part tr))).
  - done.
  - intros t1 t2 H1 H2. unfold facade_part, files_opened, closed_files in *.
    rewrite !omap_app. by rewrite H1, H2.
  - intros c r Hc. destruct c; try done. by destruct (Hc c).
  - intros self op w'. rewrite facade_part_lift.
    apply perform_files_balanced.
Qed.

(** ** The demo under an account that has no display name *)

(** [get_acl] on a healthy service, for an owner whose display name
    cannot be read: the error of the subscript comes out, after the one
    call that loads the ACL. *)
Lemma get_acl_raises (self : ObjectWrapper) (ob : RemoteObject) (e : exn)
    (w : World) :
  healthy w →
  visible w (object self) = Some ob →
  display_name_of (Owner_ (policy ob)) = Raised e →
  let r := exec serve (get_acl self) w in
  result_of r = Raised e ∧
  store (state_of r) = store w ∧
  same_setting w (state_of r) ∧
  calls (state_of r) = S (calls w) ∧
  log (state_of r) = log w.
Proof.
  intros [Hf Hl] Hvis Hname. unfold_facade. cbn.
  rewrite (serve_acl_load_ok _ ob w Hvis (Hf _)). cbn.
  unfold display_name_of in Hname.
  destruct (Owner_ (policy ob)) as [d |]; cbn.
  - destruct (DisplayName d); [discriminate |].
    injection Hname as <-. cbn. done.
  - injection Hname as <-. cbn. done.
Qed.

(** One turn of the loop under such an account: the file is uploaded and
    the grant is added, then the [KeyError] of [get_acl] leaves the
    [try], whose handler is for [ClientError] only. *)
Lemma upload_one_fails (json_dumps : option (list Grant) → string)
    (b k : string) (bs : bytes) (d : DemoWorld) :
  healthy (service d) →
  DisplayName (account (service d)) = None →
  files (service d) !! build_file k = Some bs →
  let r := run drive (upload_one json_dumps (mkBucket b) k) d in
  driver_result r = Raised (KeyError "DisplayName") ∧
  store (service (driver_state r))
  = <[(b, k) := mkRemote bs (granted_policy (account (service d))) 0]>
      (store (service d)) ∧
  calls (service (driver_state r)) = calls (service d) + 5 ∧
  stdout (driver_state r)
  = stdout d ++ ["Put file object with key " +:+ k +:+ " in bucket "
                 +:+ b +:+ "."].
Proof.
  intros Hh Hname Hfile. unfold upload_one. cbn [name].
  set (self := init (Object b k)).
  rewrite run_s_bind, run_lift_drive. cbn zeta.
  destruct (put_file_runs self (directory_file_names +:+ k) bs (service d)
              Hh Hfile) as (Hres1 & Hstore1 & Hset1 & Hcalls1).
  destruct (exec serve (put self _) (service d)) as [[res1 s1] t1].
  cbn in Hres1, Hstore1, Hset1, Hcalls1. subst res1.
  cbn [driver_result driver_state driver_trace result_of state_of trace_of
       fst snd].
  pose proof (same_setting_healthy _ _ Hset1 Hh) as Hh1.
  rewrite run_s_bind, run_print_drive.
  cbn [driver_result driver_state driver_trace fst snd].
  rewrite run_s_try_except. cbn zeta.
  rewrite run_s_bind, run_lift_drive. cbn zeta. cbn [service with_service].
  set (ob1 := mkRemote bs
                (mkPolicy [mkGrant (CanonicalUser (account (service d)))
                                   FULL_CONTROL; public_read_grant]
                          (Some (account (service d)))) 0) in *.
  assert (Hvis1 : visible s1 (object self) = Some ob1).
  { apply visible_Some. rewrite Hstore1, lookup_insert_eq. done. }
  destruct (put_acl_runs self grantee_email ob1 s1 Hh1 Hvis1)
    as (Hres2 & Hstore2 & Hset2 & Hcalls2).
  destruct (exec serve (put_acl self grantee_email) s1) as [[res2 s2] t2].
  cbn in Hres2, Hstore2, Hset2, Hcalls2. subst res2.
  cbn [driver_result driver_state driver_trace result_of state_of trace_of
       fst snd].
  pose proof (same_setting_healthy _ _ Hset2 Hh1) as Hh2.
  rewrite run_s_bind, run_lift_drive. cbn zeta. cbn [service with_service].
  set (ob2 := mkRemote bs (granted_policy (account (service d))) 0).
  assert (Hvis2 : visible s2 (object self) = Some ob2).
  { apply visible_Some. rewrite Hstore2, lookup_insert_eq. done. }
  assert (Hname2 : display_name_of (Owner_ (policy ob2))
                   = Raised (KeyError "DisplayName")).
  { cbn. by rewrite Hname. }
  destruct (get_acl_raises self ob2 _ s2 Hh2 Hvis2 Hname2)
    as (Hres3 & Hstore3 & Hset3 & Hcalls3 & _).
  destruct (exec serve (get_acl self) s2) as [[res3 s3] t3].
  cbn in Hres3, Hstore3, Hset3, Hcalls3. subst res3.
  cbn [driver_result driver_state driver_trace result_of state_of trace_of
       fst snd is_ClientError service with_service stdout].
  split; [done |]. split; [| split].
  - rewrite Hstore3, Hstore2, Hstore1. cbn. by rewrite insert_insert_eq.
  - lia.
  - done.
Qed.

(** X14.  On the in-memory world where the service is healthy, the
    account that owns what is written has no display name, the first
    file of the build is there and the creation of the bucket succeeds or
    fails with a [ClientError], the demo does not return: it raises
    [KeyError] out of the first turn of its loop, after five calls to the
    storage client.  The first key then holds the bytes of its file under
    the policy of three grants, nothing else of the store has changed
    (the two other files are not uploaded), and the closing line of
    dashes is not printed. *)
Theorem demo_fails_without_display_name :
  ∀ (json_dumps : option (list Grant) → string) (bs : bytes)
    (d : DemoWorld),
    healthy (service d) →
    DisplayName (account (service d)) = None →
    files (service d) !! build_file "js/index_exam.js" = Some bs →
    match create_answer d with
    | inl (e, _) => is_ClientError e = true
    | inr _ => True
    end →
    let r := run drive (upload_react_files json_dumps) d in
    driver_result r = Raised (KeyError "DisplayName") ∧
    calls (service (driver_state r)) = calls (service d) + 5 ∧
    store (service (driver_state r))
    = <[("evaluationroom.com", "js/index_exam.js") :=
          mkRemote bs (granted_policy (account (service d))) 0]>
        (store (service d)) ∧
    last (stdout (driver_state r))
    = Some "Put file object with key js/index_exam.js in bucket evaluationroom.com.".
Proof.
  intros json_dumps bs d Hh Hname Hfile Hcreate.
  unfold upload_react_files.
  do 3 (rewrite run_s_bind, run_print_drive;
        cbn [driver_result driver_state driver_trace fst snd]).
  rewrite run_s_bind.
  change (run drive (basicConfig INFO "%(levelname)s: %(message)s") ?d0)
    with (Returned (), d0,
          [DObs (logging_basicConfig INFO "%(levelname)s: %(message)s") ()]).
  cbn [driver_result driver_state driver_trace fst snd].
  rewrite run_s_bind.
  match goal with
  | |- context [run drive (create_bucket ?b) ?d0] =>
      destruct (create_bucket_runs b d0 Hcreate) as [Hres0 Hserv0];
      destruct (run drive (create_bucket b) d0) as [[res0 d1] t0]
  end.
  cbn in Hres0, Hserv0. subst res0.
  cbn [driver_result driver_state driver_trace fst snd].
  rewrite run_s_bind.
  rewrite <- Hserv0 in Hh, Hname, Hfile.
  unfold list_file_names. cbn [for_each]. rewrite run_s_bind. cbn zeta.
  destruct (upload_one_fails json_dumps "evaluationroom.com"
              "js/index_exam.js" bs d1 Hh Hname Hfile)
    as (Hres1 & Hstore1 & Hcalls1 & Hout1).
  destruct (run drive (upload_one json_dumps _ _) d1) as [[res1 d2] t1].
  cbn in Hres1, Hstore1, Hcalls1, Hout1. subst res1.
  cbn [driver_result driver_state driver_trace fst snd].
  rewrite Hserv0 in *. split; [done |]. split; [exact Hcalls1 |].
  split; [exact Hstore1 |].
  rewrite Hout1. apply last_snoc.
Qed.

Lemma demo_fails_without_display_name_witness :
  let r := run drive (upload_react_files demo_json_dumps) nameless_demo in
  driver_result r = Raised (KeyError "DisplayName") ∧
  calls (service (driver_state r)) = calls (service nameless_demo) + 5 ∧
  store (service (driver_state r))
  = <[("evaluationroom.com", "js/index_exam.js") :=
        mkRemote ["e"%byte]
          (granted_policy (account (service nameless_demo))) 0]>
      (store (service nameless_demo)) ∧
  last (stdout (driver_state r))
  = Some "Put file object with key js/index_exam.js in bucket evaluationroom.com.".
Proof.
  apply (demo_fails_without_display_name demo_json_dumps ["e"%byte]
           nameless_demo).
  - split; intros n; cbn; [done | lia].
  - reflexivity.
  - vm_compute. reflexivity.
  - exact I.
Defined.
